(** * clyngor: the [Answers] object (clyngor/answers.py)

    A shallow embedding of [clyngor.answers.Answers]: the fast answer-set
    splitter of [_parse_answer] (a regular expression applied with
    [finditer]), the formatting pipeline of [_format], the option
    properties, and the iteration protocol of [__iter__].

    Conventions.
    - A Python [str] is a Rocq [string]; each [ascii] is read as the code
      point of the same number, so the strings covered are those over code
      points 0..255.
    - A Python exception is a value of [exn]; a computation that may raise
      returns a [result].
    - [clyngor.parsing.Parser] (the careful parser) and the ordering of
      [clyngor.as_pyasp.Atom] objects belong to other modules: they are the
      variables [parse_terms] and [atom_lt] of the section [AnswersObject]. *)

From Stdlib Require Import String Ascii List ZArith Lia Bool Arith.
From Stdlib Require Import Permutation Sorted.
Import ListNotations.

Local Open Scope string_scope.
Local Open Scope list_scope.

Set Warnings "-register-all".

(** ** Exceptions *)

Inductive exn : Type :=
| TypeError
| ValueError
| AssertionError
| SyntaxError.

Inductive result (A : Type) : Type :=
| Ok (a : A)
| Raise (e : exn).

Arguments Ok {A} a.
Arguments Raise {A} e.

Definition bind {A B : Type} (r : result A) (f : A -> result B) : result B :=
  match r with
  | Ok a => f a
  | Raise e => Raise e
  end.

Notation "x <- r ;; k" := (bind r (fun x => k))
  (at level 61, r at next level, right associativity).

(** [tuple(f(x) for x in l)]: left to right, the first exception wins. *)
Fixpoint mapM {A B : Type} (f : A -> result B) (l : list A) : result (list B) :=
  match l with
  | [] => Ok []
  | x :: l' => y <- f x ;; ys <- mapM f l' ;; Ok (y :: ys)
  end.

(** ** Python string operations used by the module *)

Module Str.

Definition startswith (p s : string) : bool := prefix p s.

Definition endswith (p s : string) : bool :=
  let n := String.length s in
  let m := String.length p in
  if (m <=? n)%nat then String.eqb (substring (n - m) m s) p else false.

(** [s[1:]] *)
Definition slice_from_1 (s : string) : string :=
  match s with
  | EmptyString => EmptyString
  | String _ t => t
  end.

(** [s[1:-1]] *)
Definition slice_1_m1 (s : string) : string :=
  substring 1 (String.length s - 2) s.

(** [s.split(sep)] for a one-character separator: never the empty list. *)
Fixpoint split (sep : ascii) (s : string) : list string :=
  match s with
  | EmptyString => [EmptyString]
  | String c t =>
      if Ascii.eqb c sep then EmptyString :: split sep t
      else match split sep t with
           | h :: r => String c h :: r
           | [] => [String c EmptyString]
           end
  end.

Definition code (c : ascii) : nat := nat_of_ascii c.

Definition in_range (lo hi : nat) (c : ascii) : bool :=
  (lo <=? code c)%nat && (code c <=? hi)%nat.

(** Characters with a decimal value (Unicode category Nd): below 256 these
    are the ten ASCII digits. *)
Definition is_decimal (c : ascii) : bool := in_range 48 57 c.

Definition decimal_value (c : ascii) : Z := Z.of_nat (code c - 48).

(** Characters with a numeric value, as [str.isnumeric] reads them: below
    256 the ASCII digits, the superscripts U+00B2, U+00B3, U+00B9 and the
    fractions U+00BC, U+00BD, U+00BE. *)
Definition is_numeric_char (c : ascii) : bool :=
  is_decimal c || in_range 178 179 c || in_range 185 185 c || in_range 188 190 c.

Fixpoint all_chars (p : ascii -> bool) (s : string) : bool :=
  match s with
  | EmptyString => true
  | String c t => p c && all_chars p t
  end.

(** [s.isnumeric()]: at least one character, all of them numeric. *)
Definition isnumeric (s : string) : bool :=
  match s with
  | EmptyString => false
  | _ => all_chars is_numeric_char s
  end.

(** Whitespace as [int] and [str.strip] read it, below 256. *)
Definition is_space (c : ascii) : bool :=
  in_range 9 13 c || in_range 28 32 c || in_range 133 133 c || in_range 160 160 c.

Fixpoint lstrip (s : string) : string :=
  match s with
  | String c t => if is_space c then lstrip t else s
  | EmptyString => EmptyString
  end.

Fixpoint rev_acc (s acc : string) : string :=
  match s with
  | EmptyString => acc
  | String c t => rev_acc t (String c acc)
  end.

Definition rev (s : string) : string := rev_acc s EmptyString.

Definition strip (s : string) : string := rev (lstrip (rev (lstrip s))).

(** The digits of a base-10 literal, most significant first: decimal
    digits, single underscores allowed between two digits.
    [acc] is the value read so far, [prev_digit] whether the previous
    character was a digit. *)
Fixpoint digits (s : string) (acc : Z) (prev_digit : bool) : result Z :=
  match s with
  | EmptyString => if prev_digit then Ok acc else Raise ValueError
  | String c t =>
      if is_decimal c then digits t (10 * acc + decimal_value c)%Z true
      else if Ascii.eqb c "_" then
        if prev_digit then digits t acc false else Raise ValueError
      else Raise ValueError
  end.

(** The number of decimal digits of a literal; underscores do not count. *)
Fixpoint count_digits (s : string) : nat :=
  match s with
  | EmptyString => 0
  | String c t => if is_decimal c then S (count_digits t) else count_digits t
  end.

(** [sys.get_int_max_str_digits()], as the interpreter starts. *)
Definition int_max_str_digits : nat := 4300.

(** The literal that follows the sign: its digits, no more of them than the
    interpreter converts ([ValueError] beyond, as for a malformed one). *)
Definition literal (t : string) : result Z :=
  z <- digits t 0%Z false ;;
  if Nat.leb (count_digits t) int_max_str_digits then Ok z else Raise ValueError.

(** [int(s)] for a string [s] (base 10): surrounding whitespace, an optional
    sign, then the digits; [ValueError] for anything else, and for more
    digits than [int_max_str_digits]. *)
Definition int (s : string) : result Z :=
  match strip s with
  | String "-" t => z <- literal t ;; Ok (- z)%Z
  | String "+" t => literal t
  | t => literal t
  end.

End Str.

(** ** Regular expressions: the fragment of Python's [re] the module uses

    A backtracking matcher in continuation-passing style, as [re] matches:
    alternatives are tried in order, repetitions are greedy, and the first
    complete match wins. *)

Module Re.

Inductive regex : Type :=
| Lit (c : ascii)                                   (* a literal character *)
| Set_ (negated : bool) (ranges : list (ascii * ascii))  (* [a-z...] and [^...] *)
| Seq (r1 r2 : regex)                               (* r1 r2 *)
| Star (r : regex)                                  (* r*  (greedy) *)
| Plus (r : regex)                                  (* r+  (greedy) *)
| Opt (r : regex)                                   (* r?  (greedy) *)
| Group (n : nat) (r : regex).                      (* the n-th capturing group *)

Definition in_set (negated : bool) (ranges : list (ascii * ascii)) (c : ascii) : bool :=
  xorb negated
       (existsb (fun '(lo, hi) => Str.in_range (Str.code lo) (Str.code hi) c) ranges).

(** The text of each group that took part in the match, latest first. *)
Definition captures : Type := list (nat * string).

Fixpoint lookup (n : nat) (caps : captures) : option string :=
  match caps with
  | [] => None
  | (i, t) :: caps' => if Nat.eqb i n then Some t else lookup n caps'
  end.

(** What was read between the input [s] and its suffix [rest]. *)
Definition consumed (s rest : string) : string :=
  substring 0 (String.length s - String.length rest) s.

Section Matcher.

Variable A : Type.

Definition cont : Type := string -> captures -> option A.

(** Greedy repetition of [body]: one more round first, then the
    continuation. A round that reads nothing is dropped, so at most
    [String.length s] rounds are run and [fuel] never runs out when it
    starts there. *)
Fixpoint star (body : string -> captures -> cont -> option A)
         (fuel : nat) (s : string) (caps : captures) (k : cont) : option A :=
  match fuel with
  | O => k s caps
  | S fuel' =>
      match body s caps
                 (fun s1 caps1 =>
                    if (String.length s1 <? String.length s)%nat
                    then star body fuel' s1 caps1 k
                    else None) with
      | Some x => Some x
      | None => k s caps
      end
  end.

Fixpoint run (r : regex) (s : string) (caps : captures) (k : cont) : option A :=
  match r with
  | Lit c =>
      match s with
      | String c' t => if Ascii.eqb c' c then k t caps else None
      | EmptyString => None
      end
  | Set_ negated ranges =>
      match s with
      | String c' t => if in_set negated ranges c' then k t caps else None
      | EmptyString => None
      end
  | Seq r1 r2 => run r1 s caps (fun s1 caps1 => run r2 s1 caps1 k)
  | Star r0 => star (run r0) (String.length s) s caps k
  | Plus r0 =>
      run r0 s caps
          (fun s1 caps1 => star (run r0) (String.length s1) s1 caps1 k)
  | Opt r0 =>
      match run r0 s caps k with
      | Some x => Some x
      | None => k s caps
      end
  | Group n r0 =>
      run r0 s caps (fun s1 caps1 => k s1 ((n, consumed s s1) :: caps1))
  end.

End Matcher.

(** The number of capturing groups of a pattern. *)
Fixpoint ngroups (r : regex) : nat :=
  match r with
  | Lit _ | Set_ _ _ => 0
  | Seq r1 r2 => ngroups r1 + ngroups r2
  | Star r0 | Plus r0 | Opt r0 => ngroups r0
  | Group _ r0 => S (ngroups r0)
  end.

(** A match object: the text matched and the groups. *)
Record match_obj : Type := Match {
  m_text : string;
  m_caps : captures;
  m_ngroups : nat
}.

(** [m.group(n)], [None] for a group that took no part in the match. *)
Definition group (m : match_obj) (n : nat) : option string := lookup n (m_caps m).

(** [m.groups()] *)
Definition groups (m : match_obj) : list (option string) :=
  map (group m) (seq 1 (m_ngroups m)).

(** [pattern.match(s)]: a match that starts at the first character of [s];
    the result is the match and what follows it in [s]. *)
Definition match_here (r : regex) (s : string) : option (match_obj * string) :=
  run _ r s [] (fun rest caps => Some (Match (consumed s rest) caps (ngroups r), rest)).

(** [pattern.finditer(s)]: the matches from left to right, none overlapping
    another. [skip] counts the characters of the previous match still to be
    passed. After a match that reads nothing the scan moves one character
    on. *)
Fixpoint finditer_from (r : regex) (skip : nat) (s : string) : list match_obj :=
  match skip with
  | S skip' =>
      match s with
      | String _ t => finditer_from r skip' t
      | EmptyString => []
      end
  | O =>
      match match_here r s with
      | Some (m, _) =>
          m :: match s with
               | String _ t => finditer_from r (String.length (m_text m) - 1) t
               | EmptyString => []
               end
      | None =>
          match s with
          | String _ t => finditer_from r 0 t
          | EmptyString => []
          end
      end
  end.

Definition finditer (r : regex) (s : string) : list match_obj := finditer_from r 0 s.

(** The declarative reading of a pattern: [matches r w caps] when [r]
    matches the whole of [w] and records the groups [caps] (latest first)
    on the way. [run] is sound for it (lemma [run_sound]). *)
Inductive matches : regex -> string -> captures -> Prop :=
| MLit c : matches (Lit c) (String c EmptyString) []
| MSet negated ranges c :
    in_set negated ranges c = true ->
    matches (Set_ negated ranges) (String c EmptyString) []
| MSeq r1 r2 w1 w2 c1 c2 :
    matches r1 w1 c1 -> matches r2 w2 c2 ->
    matches (Seq r1 r2) (w1 ++ w2) (c2 ++ c1)
| MStarNil r : matches (Star r) EmptyString []
| MStarCons r w1 w2 c1 c2 :
    matches r w1 c1 -> matches (Star r) w2 c2 ->
    matches (Star r) (w1 ++ w2) (c2 ++ c1)
| MPlus r w1 w2 c1 c2 :
    matches r w1 c1 -> matches (Star r) w2 c2 ->
    matches (Plus r) (w1 ++ w2) (c2 ++ c1)
| MOptNone r : matches (Opt r) EmptyString []
| MOptSome r w c : matches r w c -> matches (Opt r) w c
| MGroup n r w c : matches r w c -> matches (Group n r) w ((n, w) :: c).

End Re.

(** The pattern compiled in [_parse_answer]: group 1 is a lower-case letter
    followed by any number of letters, digits and underscores; group 2,
    optional, is an opening parenthesis, one or more characters other than
    a closing parenthesis, and a closing parenthesis. *)
Definition REG_ANSWER_SET : Re.regex :=
  Re.Seq
    (Re.Group 1
       (Re.Seq (Re.Set_ false [("a", "z")%char])
               (Re.Star (Re.Set_ false [("a", "z"); ("A", "Z"); ("0", "9"); ("_", "_")]%char))))
    (Re.Opt
       (Re.Group 2
          (Re.Seq (Re.Lit "(")
                  (Re.Seq (Re.Plus (Re.Set_ true [(")", ")")%char]))
                          (Re.Lit ")"))))).

(** ** Python values

    The values an answer set is made of: integers, strings, tuples, and the
    pyasp-like atoms of [clyngor.as_pyasp]. *)

Inductive pyval : Type :=
| PInt (z : Z)
| PStr (s : string)
| PTuple (items : list pyval)
| PAtom (predicate args : pyval).

(** Modelled from the spec: [as_pyasp.Atom], the "legacy atom", is "a
    compatibility value type wrapping predicate+arguments"; the module
    [clyngor/as_pyasp.py] is not among the sources. [PAtom p a] is
    [as_pyasp.Atom(p, a)], equal to another atom when both parts are. *)
Definition Atom (predicate args : pyval) : pyval := PAtom predicate args.

(** [a == b] *)
Fixpoint pyval_eqb (a b : pyval) : bool :=
  match a, b with
  | PInt x, PInt y => Z.eqb x y
  | PStr s, PStr t => String.eqb s t
  | PTuple l, PTuple m =>
      (fix items_eqb (l m : list pyval) : bool :=
         match l, m with
         | [], [] => true
         | x :: l', y :: m' => pyval_eqb x y && items_eqb l' m'
         | _, _ => false
         end) l m
  | PAtom p x, PAtom q y => pyval_eqb p q && pyval_eqb x y
  | _, _ => false
  end.

(** An atom parsed from an answer set: [(pred, args)]. [args] is a tuple of
    values, or a string when the atom was left unparsed (collapsed). *)
Inductive args_t : Type :=
| ArgTuple (items : list pyval)
| ArgStr (s : string).

Definition atom : Type := (string * args_t)%type.

(** The truth value of [args]: a tuple or a string is true unless empty. *)
Definition args_truthy (a : args_t) : bool :=
  match a with
  | ArgTuple [] => false
  | ArgStr EmptyString => false
  | _ => true
  end.

(** [args or ()] *)
Definition or_unit (a : args_t) : args_t :=
  if args_truthy a then a else ArgTuple [].

(** [args[0] if args else ()]: the first item of a tuple, the first
    character of a string. *)
Definition first_or_unit (a : args_t) : pyval :=
  match a with
  | ArgTuple (x :: _) => x
  | ArgStr (String c _) => PStr (String c EmptyString)
  | _ => PTuple []
  end.

(** [tuple(args)]: a tuple is kept; a string gives its characters. *)
Definition to_tuple (a : args_t) : pyval :=
  match a with
  | ArgTuple l => PTuple l
  | ArgStr s => PTuple (map (fun c => PStr (String c EmptyString)) (list_ascii_of_string s))
  end.

(** The containers [_format] builds. A [FrozenSet] lists its elements once
    each, in the order they were first added; that order is not observable
    in Python, and two sets are equal when they have the same elements. *)
Inductive container : Type :=
| FrozenSet (elements : list pyval)
| Tuple (elements : list pyval).

Definition elements (c : container) : list pyval :=
  match c with
  | FrozenSet l => l
  | Tuple l => l
  end.

Definition mem (x : pyval) (s : list pyval) : bool := existsb (pyval_eqb x) s.

(** [s.add(x)] *)
Definition set_add (x : pyval) (s : list pyval) : list pyval :=
  if mem x s then s else s ++ [x].

(** [set(it)]: the elements of [it], each once. *)
Definition set_of (it : list pyval) : list pyval :=
  fold_left (fun s x => set_add x s) it [].

(** [frozenset(it)] *)
Definition frozenset (it : list pyval) : container := FrozenSet (set_of it).

(** A Python [dict], in insertion order. *)
Definition dict (V : Type) : Type := list (pyval * V).

Fixpoint dict_get {V : Type} (k : pyval) (d : dict V) : option V :=
  match d with
  | [] => None
  | (k', v) :: d' => if pyval_eqb k' k then Some v else dict_get k d'
  end.

(** [d[k] = v] *)
Fixpoint dict_set {V : Type} (k : pyval) (v : V) (d : dict V) : dict V :=
  match d with
  | [] => [(k, v)]
  | (k', v') :: d' =>
      if pyval_eqb k' k then (k', v) :: d' else (k', v') :: dict_set k v d'
  end.

(** [mapping[k].add(x)] on a [defaultdict(set)] *)
Definition dict_add (k x : pyval) (d : dict (list pyval)) : dict (list pyval) :=
  match dict_get k d with
  | Some s => dict_set k (set_add x s) d
  | None => dict_set k (set_add x []) d
  end.

(** What [_format] returns: a container, or a dict from predicates to
    containers. *)
Inductive formatted : Type :=
| Flat (c : container)
| Grouped (d : dict container).

(** ** Ordering and sorting *)

Module Py.

Section Ordering.

(** [a < b] when one of the two is an [as_pyasp.Atom]: that class decides,
    and it is not among the sources. *)
Variable atom_lt : pyval -> pyval -> result bool.

(** [a < b]. Integers compare by value, strings by code points, tuples by
    their first differing item (found with [==]) or else by length; an
    integer, a string and a tuple do not compare with one another. *)
Fixpoint lt (a b : pyval) : result bool :=
  match a, b with
  | PAtom _ _, _ => atom_lt a b
  | _, PAtom _ _ => atom_lt a b
  | PInt x, PInt y => Ok (x <? y)%Z
  | PStr s, PStr t => Ok (String.ltb s t)
  | PTuple l, PTuple m =>
      (fix items_lt (l m : list pyval) : result bool :=
         match l, m with
         | [], [] => Ok false
         | [], _ :: _ => Ok true
         | _ :: _, [] => Ok false
         | x :: l', y :: m' => if pyval_eqb x y then items_lt l' m' else lt x y
         end) l m
  | _, _ => Raise TypeError
  end.

(** One step of a stable insertion sort: [x] goes before the first item it
    is less than. *)
Fixpoint insert (x : pyval) (l : list pyval) : result (list pyval) :=
  match l with
  | [] => Ok [x]
  | y :: l' =>
      b <- lt x y ;;
      if b then Ok (x :: l) else (r <- insert x l' ;; Ok (y :: r))
  end.

Fixpoint sorted_into (acc it : list pyval) : result (list pyval) :=
  match it with
  | [] => Ok acc
  | x :: it' => acc' <- insert x acc ;; sorted_into acc' it'
  end.

(** [sorted(it)]: the items in ascending order of [<], equal items in their
    original order; an exception of [<] is passed on. CPython sorts with
    another algorithm, which on three items or more may compare other
    pairs; on orders where every comparison succeeds the result is the
    same. *)
Definition sorted (it : list pyval) : result (list pyval) := sorted_into [] it.

End Ordering.

(** Python's list iterator: the list and the index of the next item. *)
Record list_iterator : Type := ListIterator {
  it_seq : list string;
  it_index : nat
}.

(** [iter(l)] for a list [l] *)
Definition iter (l : list string) : list_iterator := ListIterator l 0.

(** [next(it)]: the next item and the iterator moved on, or [None]
    (StopIteration) and the iterator as it was. *)
Definition next (it : list_iterator) : option string * list_iterator :=
  match nth_error (it_seq it) (it_index it) with
  | Some x => (Some x, ListIterator (it_seq it) (S (it_index it)))
  | None => (None, it)
  end.

End Py.

(** ** The [Answers] object *)

Record Answers : Type := mkAnswers {
  _answers : Py.list_iterator;
  _command : string;
  _first_arg_only : bool;
  _group_atoms : bool;
  _as_pyasp : bool;
  _sorted : bool;
  _careful_parsing : bool;
  _collapse_atoms : bool;
  _collapse_args : bool;
  _parse_int : bool;
  _ignore_args : bool
}.

(** [Answers(answers, command)] *)
Definition __init__ (answers : list string) (command : string) : Answers :=
  {| _answers := Py.iter answers;
     _command := command;
     _first_arg_only := false;
     _group_atoms := false;
     _as_pyasp := false;
     _sorted := false;
     _careful_parsing := false;
     _collapse_atoms := false;
     _collapse_args := true;
     _parse_int := true;
     _ignore_args := false |}.

Definition command (self : Answers) : string := _command self.

(** The option properties: each sets its attributes on [self] and returns
    [self]. *)

Definition first_arg_only (self : Answers) : Answers :=
  mkAnswers (_answers self) (_command self) true (_group_atoms self)
            (_as_pyasp self) (_sorted self) (_careful_parsing self)
            (_collapse_atoms self) (_collapse_args self) (_parse_int self)
            (_ignore_args self).

Definition by_predicate (self : Answers) : Answers :=
  mkAnswers (_answers self) (_command self) (_first_arg_only self) true
            (_as_pyasp self) (_sorted self) (_careful_parsing self)
            (_collapse_atoms self) (_collapse_args self) (_parse_int self)
            (_ignore_args self).

Definition as_pyasp (self : Answers) : Answers :=
  mkAnswers (_answers self) (_command self) (_first_arg_only self)
            (_group_atoms self) true (_sorted self) (_careful_parsing self)
            (_collapse_atoms self) (_collapse_args self) (_parse_int self)
            (_ignore_args self).

Definition sorted (self : Answers) : Answers :=
  mkAnswers (_answers self) (_command self) (_first_arg_only self)
            (_group_atoms self) (_as_pyasp self) true (_careful_parsing self)
            (_collapse_atoms self) (_collapse_args self) (_parse_int self)
            (_ignore_args self).

Definition careful_parsing (self : Answers) : Answers :=
  mkAnswers (_answers self) (_command self) (_first_arg_only self)
            (_group_atoms self) (_as_pyasp self) (_sorted self) true
            (_collapse_atoms self) (_collapse_args self) (_parse_int self)
            (_ignore_args self).

Definition atoms_as_string (self : Answers) : Answers :=
  mkAnswers (_answers self) (_command self) (_first_arg_only self)
            (_group_atoms self) (_as_pyasp self) (_sorted self)
            (_careful_parsing self) true true (_parse_int self)
            (_ignore_args self).

Definition int_not_parsed (self : Answers) : Answers :=
  mkAnswers (_answers self) (_command self) (_first_arg_only self)
            (_group_atoms self) (_as_pyasp self) (_sorted self)
            (_careful_parsing self) (_collapse_atoms self)
            (_collapse_args self) false (_ignore_args self).

Definition parse_args (self : Answers) : Answers :=
  mkAnswers (_answers self) (_command self) (_first_arg_only self)
            (_group_atoms self) (_as_pyasp self) (_sorted self)
            true false false (_parse_int self) (_ignore_args self).

Definition no_arg (self : Answers) : Answers :=
  mkAnswers (_answers self) (_command self) (_first_arg_only self)
            (_group_atoms self) (_as_pyasp self) (_sorted self)
            (_careful_parsing self) (_collapse_atoms self)
            (_collapse_args self) (_parse_int self) true.

(** The option properties by name, to speak of chains of activations. *)
Inductive option_name : Type :=
| Ofirst_arg_only | Oby_predicate | Oas_pyasp | Osorted | Ocareful_parsing
| Oatoms_as_string | Oint_not_parsed | Oparse_args | Ono_arg.

Definition activate (self : Answers) (o : option_name) : Answers :=
  match o with
  | Ofirst_arg_only => first_arg_only self
  | Oby_predicate => by_predicate self
  | Oas_pyasp => as_pyasp self
  | Osorted => sorted self
  | Ocareful_parsing => careful_parsing self
  | Oatoms_as_string => atoms_as_string self
  | Oint_not_parsed => int_not_parsed self
  | Oparse_args => parse_args self
  | Ono_arg => no_arg self
  end.

(** [self.o1.o2. ... .on] *)
Definition activate_all (self : Answers) (os : list option_name) : Answers :=
  fold_left activate os self.

(** [self] with its iterator replaced (the iterator is a shared object:
    advancing it is seen by every later use of [self]). *)
Definition with_answers (self : Answers) (it : Py.list_iterator) : Answers :=
  mkAnswers it (_command self) (_first_arg_only self) (_group_atoms self)
            (_as_pyasp self) (_sorted self) (_careful_parsing self)
            (_collapse_atoms self) (_collapse_args self) (_parse_int self)
            (_ignore_args self).

Section AnswersObject.

(** [parsing.Parser(collapse_atoms, collapse_args, parse_integer=...)
    .parse_terms(answer_set)], of [clyngor/parsing.py], which is not among
    the sources: the atoms of the answer set, or an exception. *)
Variable parse_terms : bool -> bool -> bool -> string -> result (list atom).

(** The ordering of [as_pyasp.Atom] objects, see [Py.lt]. *)
Variable atom_lt : pyval -> pyval -> result bool.

(** *** [_parse_answer] *)

(** The conversion of one argument in the fast mode:
    [int(arg) if self._parse_int and
     (arg[1:] if arg.startswith('-') else arg).isnumeric() else arg]. *)
Definition convert_arg (self : Answers) (arg : string) : result pyval :=
  if _parse_int self
     && Str.isnumeric (if Str.startswith "-" arg then Str.slice_from_1 arg else arg)
  then z <- Str.int arg ;; Ok (PInt z)
  else Ok (PStr arg).

(** The condition of the [assert]:
    [args is None or (args.startswith('(') and args.endswith(')'))]. *)
Definition asserted (args : option string) : bool :=
  match args with
  | None => true
  | Some a => Str.startswith "(" a && Str.endswith ")" a
  end.

(** The body of the loop over the matches of [REG_ANSWER_SET]: the atom
    yielded for one match. Group 1 is not optional in the pattern and is
    part of every match (lemma [finditer_groups]), so the last case is
    never reached. *)
Definition atom_of_match (self : Answers) (m : Re.match_obj) : result atom :=
  match Re.groups m with
  | [Some pred; args] =>
      if asserted args then
        match args with
        | Some (String _ _ as a) =>
            let args := Str.slice_1_m1 a in
            if negb (_collapse_atoms self) then
              items <- mapM (convert_arg self) (Str.split "," args) ;;
              Ok (pred, or_unit (ArgTuple items))
            else Ok (pred, or_unit (ArgStr args))
        | _ => Ok (pred, ArgTuple [])
        end
      else Raise AssertionError
  | _ => Raise TypeError
  end.

(** [tuple(self._parse_answer(answer_set))]: the atoms of one answer set. *)
Definition _parse_answer (self : Answers) (answer_set : string) : result (list atom) :=
  if _careful_parsing self then
    parse_terms (_collapse_atoms self) (_collapse_args self) (_parse_int self)
                answer_set
  else
    mapM (atom_of_match self) (Re.finditer REG_ANSWER_SET answer_set).

(** *** [_format] *)

Definition sorted_tuple (it : list pyval) : result container :=
  l <- Py.sorted atom_lt it ;; Ok (Tuple l).

(** [builder = sorted_tuple if self._sorted else frozenset] *)
Definition builder (self : Answers) (it : list pyval) : result container :=
  if _sorted self then sorted_tuple it else Ok (frozenset it).

(** [{pred: frozenset() for pred in preds}] *)
Definition empty_by_predicate (preds : list string) : dict container :=
  fold_left (fun d pred => dict_set (PStr pred) (frozenset []) d) preds [].

(** [(pred, args[0] if args else ())] *)
Definition first_arg_item (a : atom) : pyval :=
  let '(pred, args) := a in PTuple [PStr pred; first_or_unit args].

(** [(pred, tuple(args))] *)
Definition all_args_item (a : atom) : pyval :=
  let '(pred, args) := a in PTuple [PStr pred; to_tuple args].

(** [pred, args = item], the unpacking of a pair. *)
Definition unpack2 (item : pyval) : result (pyval * pyval) :=
  match item with
  | PTuple [pred; args] => Ok (pred, args)
  | PTuple _ => Raise ValueError
  | _ => Raise TypeError
  end.

(** The loop that fills [mapping = defaultdict(set)]. *)
Fixpoint group_items (self : Answers) (items : list pyval)
         (mapping : dict (list pyval)) : result (dict (list pyval)) :=
  match items with
  | [] => Ok mapping
  | item :: items' =>
      pa <- unpack2 item ;;
      let '(pred, args) := pa in
      let args := if _as_pyasp self then Atom pred args else args in
      group_items self items' (dict_add pred args mapping)
  end.

(** [as_pyasp.Atom] applied to the two components of [item]. *)
Definition atom_of_item (item : pyval) : result pyval :=
  pa <- unpack2 item ;; let '(pred, args) := pa in Ok (Atom pred args).

Definition _format (self : Answers) (answer_set : list atom) : result formatted :=
  if _ignore_args self then
    let answer_set := map fst answer_set in
    if _group_atoms self then Ok (Grouped (empty_by_predicate answer_set))
    else if _as_pyasp self then
      c <- builder self (map (fun pred => Atom (PStr pred) (PTuple [])) answer_set) ;;
      Ok (Flat c)
    else
      c <- builder self (map PStr answer_set) ;; Ok (Flat c)
  else
    answer_set <-
      (if _first_arg_only self
       then builder self (map first_arg_item answer_set)
       else builder self (map all_args_item answer_set)) ;;
    if _group_atoms self then
      mapping <- group_items self (elements answer_set) [] ;;
      d <- mapM (fun '(pred, args) => c <- builder self args ;; Ok (pred, c))
                mapping ;;
      Ok (Grouped d)
    else if _as_pyasp self then
      atoms <- mapM atom_of_item (elements answer_set) ;;
      c <- builder self atoms ;; Ok (Flat c)
    else Ok (Flat answer_set).

(** *** [__iter__] and [__next__] *)

(** One resumption of the generator [__iter__]: the next raw answer set is
    taken from the shared iterator [self._answers], parsed and formatted.
    [None] is the end of the generator; an exception ends it as well. *)
Definition resume (self : Answers) : option (result formatted) * Answers :=
  match Py.next (_answers self) with
  | (Some answer_set, it) =>
      let self := with_answers self it in
      (Some (atoms <- _parse_answer self answer_set ;; _format self atoms), self)
  | (None, it) => (None, with_answers self it)
  end.

(** [next(iter(self))]: a new generator, resumed once. *)
Definition __next__ (self : Answers) : option (result formatted) * Answers :=
  resume self.

(** How a complete iteration ended. *)
Inductive ending : Type :=
| Exhausted
| Raised (e : exn).

(** A complete iteration ([for answer in self], [list(self)]): the values
    yielded, how it ended, and [self] afterwards. [None] stands for fuel
    that ran out, which [iterate] excludes (lemma [iterate_total]). *)
Fixpoint iterate_fuel (fuel : nat) (self : Answers)
  : option (list formatted * ending * Answers) :=
  match resume self with
  | (None, self') => Some ([], Exhausted, self')
  | (Some (Raise e), self') => Some ([], Raised e, self')
  | (Some (Ok v), self') =>
      match fuel with
      | O => None
      | S fuel' =>
          match iterate_fuel fuel' self' with
          | Some (vs, e, self'') => Some (v :: vs, e, self'')
          | None => None
          end
      end
  end.

Definition iterate (self : Answers) : option (list formatted * ending * Answers) :=
  iterate_fuel (List.length (Py.it_seq (_answers self)) - Py.it_index (_answers self))
               self.

End AnswersObject.

(** ** Vocabulary of the statements *)

(** Stand-ins for the two variables of [AnswersObject] in closed examples:
    a careful parser that accepts nothing and an order that compares no
    atom. The examples that use them run in the fast mode and without
    [as_pyasp], where neither is called. *)
Definition no_careful_parser : bool -> bool -> bool -> string -> result (list atom) :=
  fun _ _ _ _ => Raise SyntaxError.

Definition no_atom_order : pyval -> pyval -> result bool :=
  fun _ _ => Raise TypeError.

(** [a < b] and [b < a] both return. *)
Definition comparable (atom_lt : pyval -> pyval -> result bool) (a b : pyval) : Prop :=
  (exists r, Py.lt atom_lt a b = Ok r) /\ (exists r, Py.lt atom_lt b a = Ok r).

(** The items [_format] sorts or collects first, before any of them is
    wrapped as an [as_pyasp.Atom]: the predicates when the arguments are
    ignored, else the pairs of a predicate and its first argument or all
    its arguments. *)
Definition items_of (self : Answers) (answer_set : list atom) : list pyval :=
  if _ignore_args self then map PStr (map fst answer_set)
  else if _first_arg_only self then map first_arg_item answer_set
  else map all_args_item answer_set.


(** [c] and the frozenset [s] have the same elements. *)
Definition same_elements (c s : container) : Prop :=
  (exists l, s = FrozenSet l) /\ forall x, In x (elements c) <-> In x (elements s).

(** The same, key by key, for grouped answers. *)
Definition same_elements_formatted (a b : formatted) : Prop :=
  match a, b with
  | Flat c, Flat s => same_elements c s
  | Grouped d1, Grouped d2 =>
      forall k, match dict_get k d1, dict_get k d2 with
                | Some c, Some s => same_elements c s
                | None, None => True
                | _, _ => False
                end
  | _, _ => False
  end.

(** What [mapping] holds for an atom when atoms are grouped: the argument
    part, wrapped as an [as_pyasp.Atom] if asked. *)
Definition residual (self : Answers) (pred args : pyval) : pyval :=
  if _as_pyasp self then Atom pred args else args.

(** The elements recorded under [k] in a [defaultdict(set)]. *)
Definition members (k : pyval) (m : dict (list pyval)) : list pyval :=
  match dict_get k m with
  | Some s => s
  | None => []
  end.

(** A pair [(k, a)]. *)
Definition is_pair (item : pyval) : Prop := exists k a, item = PTuple [k; a].

(** The invariant of [mapping]: keys once each, sets without repetition. *)
Definition mapping_ok (m : dict (list pyval)) : Prop :=
  NoDup (map fst m) /\ forall k, NoDup (members k m).

(** A matcher [body] is sound for the pattern [r]: when it succeeds, its
    continuation was called on what follows a word that [r] matches, with
    the groups of that match added. *)
Definition sound_for {A : Type} (r : Re.regex)
           (body : string -> Re.captures -> Re.cont A -> option A) : Prop :=
  forall s caps k x,
    body s caps k = Some x ->
    exists w c s1, s = (w ++ s1)%string /\ Re.matches r w c /\ k s1 (c ++ caps) = Some x.

(** The number a string of decimal digits denotes, after the digits that
    gave [acc]. *)
Fixpoint decimal_number (t : string) (acc : Z) : Z :=
  match t with
  | EmptyString => acc
  | String c t' => decimal_number t' (10 * acc + Str.decimal_value c)%Z
  end.

(** The answer set [p("a,N,b")], where N is the character U+00B2
    (superscript two): an atom whose only argument is a quoted string with
    commas in it, as the solver prints it. *)
Definition superscript_answer_set : string :=
  "p(" ++ String "034" ("a," ++ String "178" (",b" ++ String "034" ")")).

(** Induction on values, with the items of a tuple covered. *)
Fixpoint pyval_ind_nested (P : pyval -> Prop)
         (HInt : forall z, P (PInt z))
         (HStr : forall s, P (PStr s))
         (HTuple : forall l, Forall P l -> P (PTuple l))
         (HAtom : forall p a, P p -> P a -> P (PAtom p a))
         (v : pyval) : P v :=
  match v with
  | PInt z => HInt z
  | PStr s => HStr s
  | PTuple l =>
      HTuple l
        ((fix all (l : list pyval) : Forall P l :=
            match l with
            | [] => Forall_nil P
            | x :: l' =>
                Forall_cons x (pyval_ind_nested P HInt HStr HTuple HAtom x) (all l')
            end) l)
  | PAtom p a =>
      HAtom p a (pyval_ind_nested P HInt HStr HTuple HAtom p)
            (pyval_ind_nested P HInt HStr HTuple HAtom a)
  end.

(** ** Vocabulary of the further statements *)

(** Two options that assign different values to the same attribute:
    [atoms_as_string] and [parse_args], on the two collapse flags. *)
Definition conflicting (o1 o2 : option_name) : bool :=
  match o1, o2 with
  | Oatoms_as_string, Oparse_args | Oparse_args, Oatoms_as_string => true
  | _, _ => false
  end.

Definition option_eqb (o1 o2 : option_name) : bool :=
  match o1, o2 with
  | Ofirst_arg_only, Ofirst_arg_only | Oby_predicate, Oby_predicate
  | Oas_pyasp, Oas_pyasp | Osorted, Osorted | Ocareful_parsing, Ocareful_parsing
  | Oatoms_as_string, Oatoms_as_string | Oint_not_parsed, Oint_not_parsed
  | Oparse_args, Oparse_args | Ono_arg, Ono_arg => true
  | _, _ => false
  end.

(** The option [o] is activated somewhere in the chain [os]. *)
Definition mentions (o : option_name) (os : list option_name) : bool :=
  existsb (option_eqb o) os.

(** The raw answer sets [self._answers] has still to give. *)
Definition remaining (self : Answers) : list string :=
  skipn (Py.it_index (_answers self)) (Py.it_seq (_answers self)).

(** [self'] is [self] with its iterator moved: the same command and
    options. *)
Definition same_options (self self' : Answers) : Prop :=
  with_answers self' (_answers self) = self.

Section Reference.

Variable parse_terms : bool -> bool -> bool -> string -> result (list atom).
Variable atom_lt : pyval -> pyval -> result bool.

(** One raw answer set parsed, then formatted: the body of the loop of
    [__iter__]. *)
Definition format_raw (self : Answers) (raw : string) : result formatted :=
  atoms <- _parse_answer parse_terms self raw ;; _format atom_lt self atoms.

(** The loop of [__iter__] read as a traversal of a list of raw answer
    sets: the values yielded, how the traversal ended, and the raw answer
    sets left unread. *)
Fixpoint format_all (self : Answers) (raws : list string)
  : list formatted * ending * list string :=
  match raws with
  | [] => ([], Exhausted, [])
  | raw :: rest =>
      match format_raw self raw with
      | Ok v => let '(vs, e, unread) := format_all self rest in (v :: vs, e, unread)
      | Raise e => ([], Raised e, rest)
      end
  end.

End Reference.

(** [sep.join(l)] *)
Fixpoint join (sep : string) (l : list string) : string :=
  match l with
  | [] => EmptyString
  | [x] => x
  | x :: l' => (x ++ sep ++ join sep l')%string
  end.

(** The characters of the two sets of [REG_ANSWER_SET]. *)
Definition is_lower (c : ascii) : bool := Str.in_range 97 122 c.

Definition is_word (c : ascii) : bool :=
  Str.in_range 97 122 c || Str.in_range 65 90 c || Str.in_range 48 57 c
  || Str.in_range 95 95 c.

(** A lower-case letter followed by letters, digits and underscores. *)
Definition is_identifier (s : string) : bool :=
  match s with
  | String c t => is_lower c && Str.all_chars is_word t
  | EmptyString => false
  end.

(** The text of an atom whose arguments are the strings [args]: the
    predicate alone when there is none, else the predicate and the
    arguments between parentheses, separated by commas. *)
Definition render_atom (a : string * list string) : string :=
  match a with
  | (pred, []) => pred
  | (pred, args) => (pred ++ "(" ++ join "," args ++ ")")%string
  end.

(** The text of an answer set: its atoms separated by spaces. *)
Definition render_answer_set (atoms : list (string * list string)) : string :=
  join " " (map render_atom atoms).

Definition no_char (c : ascii) (s : string) : bool :=
  Str.all_chars (fun x => negb (Ascii.eqb x c)) s.

(** An atom the fast mode reads back as it is: an identifier as predicate,
    no comma and no closing parenthesis inside an argument, and not the
    empty string as only argument. *)
Definition plain_atom (a : string * list string) : bool :=
  let '(pred, args) := a in
  is_identifier pred
  && forallb (fun arg => no_char "," arg && no_char ")" arg) args
  && negb (match args with [EmptyString] => true | _ => false end).

(** [s] is empty or starts with a character that [p] rejects. *)
Definition stops (p : ascii -> bool) (s : string) : Prop :=
  match s with
  | EmptyString => True
  | String c _ => p c = false
  end.

(** * Properties

    Lemmas on the operations above, then the statements about the
    [Answers] object. *)

(** ** Strings *)

Lemma str_length_app (a b : string) :
  String.length (a ++ b) = String.length a + String.length b.
Proof. induction a as [|c a IH]; simpl; [reflexivity | now rewrite IH]. Qed.

Lemma app_assoc_str (a b c : string) : ((a ++ b) ++ c = a ++ (b ++ c))%string.
Proof. induction a as [|x a IH]; simpl; [reflexivity | now rewrite IH]. Qed.

Lemma substring_0_0 (s : string) : substring 0 0 s = EmptyString.
Proof. destruct s; reflexivity. Qed.

Lemma substring_0_length (s : string) : substring 0 (String.length s) s = s.
Proof. induction s as [|c s IH]; simpl; [reflexivity | now rewrite IH]. Qed.

Lemma substring_0_app (w rest : string) :
  substring 0 (String.length w) (w ++ rest) = w.
Proof.
  induction w as [|c w IH]; simpl.
  - apply substring_0_0.
  - now rewrite IH.
Qed.

Lemma substring_skip_app (w p : string) (n : nat) :
  substring (String.length w) n (w ++ p) = substring 0 n p.
Proof. induction w as [|c w IH]; simpl; [reflexivity | exact IH]. Qed.

Lemma consumed_app (w rest : string) : Re.consumed (w ++ rest) rest = w.
Proof.
  unfold Re.consumed. rewrite str_length_app.
  replace (String.length w + String.length rest - String.length rest)
    with (String.length w) by lia.
  apply substring_0_app.
Qed.

Lemma endswith_app (w p : string) : Str.endswith p (w ++ p) = true.
Proof.
  unfold Str.endswith. rewrite str_length_app.
  replace (String.length p <=? String.length w + String.length p)%nat with true
    by (symmetry; apply Nat.leb_le; lia).
  replace (String.length w + String.length p - String.length p)
    with (String.length w) by lia.
  rewrite substring_skip_app, substring_0_length. apply String.eqb_refl.
Qed.

(** ** The matcher is sound for the declarative reading *)

Section RunSound.

Variable A : Type.

Lemma star_sound (r : Re.regex) body :
  sound_for r body ->
  forall fuel, sound_for (Re.Star r) (Re.star A body fuel).
Proof.
  intros Hbody fuel. induction fuel as [|fuel IH]; intros s caps k x H; simpl in H.
  - exists EmptyString, [], s. repeat split; [constructor | exact H].
  - destruct (body s caps _) as [y|] eqn:E.
    + injection H as ->. apply Hbody in E.
      destruct E as (w1 & c1 & s1 & -> & M1 & E).
      destruct (String.length s1 <? String.length (w1 ++ s1))%nat; [|discriminate].
      apply IH in E. destruct E as (w2 & c2 & s2 & -> & M2 & E).
      exists (w1 ++ w2)%string, (c2 ++ c1), s2. repeat split.
      * now rewrite app_assoc_str.
      * now constructor.
      * now rewrite <- app_assoc.
    + exists EmptyString, [], s. repeat split; [constructor | exact H].
Qed.

Lemma run_sound (r : Re.regex) : sound_for r (Re.run A r).
Proof.
  induction r as [c | neg rs | r1 IH1 r2 IH2 | r IH | r IH | r IH | n r IH];
    intros s caps k x H; simpl in H.
  - destruct s as [|c' t]; [discriminate|].
    destruct (Ascii.eqb_spec c' c) as [->|]; [|discriminate].
    exists (String c EmptyString), [], t. repeat split; [constructor | exact H].
  - destruct s as [|c' t]; [discriminate|].
    destruct (Re.in_set neg rs c') eqn:E; [|discriminate].
    exists (String c' EmptyString), [], t. repeat split; [now constructor | exact H].
  - apply IH1 in H. destruct H as (w1 & c1 & s1 & -> & M1 & H).
    apply IH2 in H. destruct H as (w2 & c2 & s2 & -> & M2 & H).
    exists (w1 ++ w2)%string, (c2 ++ c1), s2. repeat split.
    + now rewrite app_assoc_str.
    + now constructor.
    + now rewrite <- app_assoc.
  - exact (star_sound r _ IH _ s caps k x H).
  - apply IH in H. destruct H as (w1 & c1 & s1 & -> & M1 & H).
    apply (star_sound r _ IH) in H. destruct H as (w2 & c2 & s2 & -> & M2 & H).
    exists (w1 ++ w2)%string, (c2 ++ c1), s2. repeat split.
    + now rewrite app_assoc_str.
    + now constructor.
    + now rewrite <- app_assoc.
  - destruct (Re.run A r s caps k) as [y|] eqn:E.
    + injection H as ->. apply IH in E. destruct E as (w & c & s1 & -> & M & E).
      exists w, c, s1. repeat split; [now constructor | exact E].
    + exists EmptyString, [], s. repeat split; [constructor | exact H].
  - apply IH in H. destruct H as (w & c & s1 & -> & M & H).
    rewrite consumed_app in H.
    exists w, ((n, w) :: c), s1. repeat split; [now constructor | exact H].
Qed.

End RunSound.

Lemma match_here_sound (r : Re.regex) (s rest : string) (m : Re.match_obj) :
  Re.match_here r s = Some (m, rest) ->
  exists w c, s = (w ++ rest)%string /\ Re.matches r w c
              /\ m = Re.Match w c (Re.ngroups r).
Proof.
  unfold Re.match_here. intros H. apply run_sound in H.
  destruct H as (w & c & s1 & -> & M & H). injection H as <- <-.
  rewrite consumed_app, app_nil_r. now exists w, c.
Qed.

Lemma finditer_from_sound (r : Re.regex) (s : string) :
  forall skip m, In m (Re.finditer_from r skip s) ->
                 exists w c, Re.matches r w c /\ m = Re.Match w c (Re.ngroups r).
Proof.
  induction s as [|ch t IH]; intros skip m H.
  - destruct skip; simpl in H; [|contradiction].
    destruct (Re.match_here r "") as [[m0 rest]|] eqn:E; [|contradiction].
    destruct H as [<-|[]]. apply match_here_sound in E.
    destruct E as (w & c & _ & M & ->). now exists w, c.
  - destruct skip; simpl in H; [|now apply IH in H].
    destruct (Re.match_here r (String ch t)) as [[m0 rest]|] eqn:E.
    + destruct H as [<-|H]; [|now apply IH in H].
      apply match_here_sound in E. destruct E as (w & c & _ & M & ->). now exists w, c.
    + now apply IH in H.
Qed.

Lemma matches_star_set_caps neg rs w c :
  Re.matches (Re.Star (Re.Set_ neg rs)) w c -> c = [].
Proof.
  intros H. remember (Re.Star (Re.Set_ neg rs)) as r eqn:E.
  induction H; try discriminate; [reflexivity|].
  injection E as ->. inversion H; subst. rewrite (IHmatches2 eq_refl). reflexivity.
Qed.

Lemma matches_seq_inv r1 r2 w c :
  Re.matches (Re.Seq r1 r2) w c ->
  exists w1 w2 c1 c2, w = (w1 ++ w2)%string /\ c = c2 ++ c1
                      /\ Re.matches r1 w1 c1 /\ Re.matches r2 w2 c2.
Proof. inversion 1; subst. eauto 10. Qed.

Lemma matches_plus_inv r w c :
  Re.matches (Re.Plus r) w c ->
  exists w1 w2 c1 c2, w = (w1 ++ w2)%string /\ c = c2 ++ c1
                      /\ Re.matches r w1 c1 /\ Re.matches (Re.Star r) w2 c2.
Proof. inversion 1; subst. eauto 10. Qed.

Lemma matches_group_inv n r w c :
  Re.matches (Re.Group n r) w c -> exists c', c = (n, w) :: c' /\ Re.matches r w c'.
Proof. inversion 1; subst. eauto. Qed.

Lemma matches_opt_inv r w c :
  Re.matches (Re.Opt r) w c -> (w = EmptyString /\ c = []) \/ Re.matches r w c.
Proof. inversion 1; subst; auto. Qed.

Lemma matches_lit_inv ch w c :
  Re.matches (Re.Lit ch) w c -> w = String ch EmptyString /\ c = [].
Proof. inversion 1; subst; auto. Qed.

Lemma matches_set_inv neg rs w c :
  Re.matches (Re.Set_ neg rs) w c ->
  exists ch, w = String ch EmptyString /\ Re.in_set neg rs ch = true /\ c = [].
Proof. inversion 1; subst; eauto. Qed.

(** The groups of a match of [REG_ANSWER_SET]: group 1 alone, or group 1
    and a parenthesised group 2. *)
Lemma REG_ANSWER_SET_caps w c :
  Re.matches REG_ANSWER_SET w c ->
  exists pred,
    c = [(1, pred)] \/
    exists inner, c = [(2, ("(" ++ inner ++ ")")%string); (1, pred)].
Proof.
  unfold REG_ANSWER_SET. intros H.
  apply matches_seq_inv in H. destruct H as (w1 & w2 & c1 & c2 & -> & -> & H1 & H2).
  apply matches_group_inv in H1. destruct H1 as (c1' & -> & H1).
  apply matches_seq_inv in H1. destruct H1 as (wa & wb & ca & cb & -> & -> & Ha & Hb).
  apply matches_set_inv in Ha. destruct Ha as (ch & -> & _ & ->).
  apply matches_star_set_caps in Hb. subst cb.
  exists (String ch EmptyString ++ wb)%string.
  apply matches_opt_inv in H2. destruct H2 as [[-> ->] | H2].
  - left. reflexivity.
  - right.
    apply matches_group_inv in H2. destruct H2 as (c2' & -> & H2).
    apply matches_seq_inv in H2. destruct H2 as (wc & wd & cc & cd & -> & -> & Hc & Hd).
    apply matches_lit_inv in Hc. destruct Hc as [-> ->].
    apply matches_seq_inv in Hd. destruct Hd as (we & wf & ce & cf & -> & -> & He & Hf).
    apply matches_lit_inv in Hf. destruct Hf as [-> ->].
    apply matches_plus_inv in He. destruct He as (wg & wh & cg & ch' & -> & -> & Hg & Hh).
    apply matches_set_inv in Hg. destruct Hg as (x & -> & _ & ->).
    apply matches_star_set_caps in Hh. subst.
    exists (String x EmptyString ++ wh)%string. reflexivity.
Qed.

Lemma finditer_groups (answer_set : string) (m : Re.match_obj) :
  In m (Re.finditer REG_ANSWER_SET answer_set) ->
  exists pred args, Re.groups m = [Some pred; args]
                    /\ Re.group m 1 = Some pred /\ Re.group m 2 = args
                    /\ (args = None \/ exists inner, args = Some ("(" ++ inner ++ ")")%string).
Proof.
  intros H. apply finditer_from_sound in H. destruct H as (w & c & M & ->).
  apply REG_ANSWER_SET_caps in M. destruct M as (pred & [-> | (inner & ->)]).
  - exists pred, None. cbn. auto.
  - exists pred, (Some ("(" ++ inner ++ ")")%string). cbn. repeat split; eauto.
Qed.

Lemma asserted_parenthesised (inner : string) :
  Str.startswith "(" ("(" ++ inner ++ ")")%string = true
  /\ Str.endswith ")" ("(" ++ inner ++ ")")%string = true.
Proof.
  split.
  - simpl. destruct (inner ++ ")")%string; reflexivity.
  - rewrite <- app_assoc_str. apply endswith_app.
Qed.

Lemma bind_ok {A B : Type} (r : result A) (f : A -> result B) (b : B) :
  bind r f = Ok b -> exists a, r = Ok a /\ f a = Ok b.
Proof. destruct r; simpl; [eauto | discriminate]. Qed.

Lemma bind_raise {A B : Type} (r : result A) (f : A -> result B) (e : exn) :
  bind r f = Raise e -> r = Raise e \/ exists a, r = Ok a /\ f a = Raise e.
Proof. destruct r; simpl; [eauto | intros [= ->]; auto]. Qed.

Lemma mapM_raise {A B : Type} (f : A -> result B) (l : list A) (e : exn) :
  mapM f l = Raise e -> exists x, In x l /\ f x = Raise e.
Proof.
  induction l as [|x l IH]; simpl; [discriminate|].
  intros H. apply bind_raise in H. destruct H as [H | (y & Hy & H)].
  - exists x. auto.
  - apply bind_raise in H. destruct H as [H | (ys & _ & H)]; [|discriminate].
    destruct (IH H) as (x' & Hin & Hx'). exists x'. auto.
Qed.

Lemma mapM_ok_In {A B : Type} (f : A -> result B) (l : list A) (ys : list B) :
  mapM f l = Ok ys -> forall y, In y ys <-> exists x, In x l /\ f x = Ok y.
Proof.
  revert ys. induction l as [|x l IH]; simpl; intros ys H y.
  - injection H as <-. split; [contradiction | intros (? & [] & _)].
  - apply bind_ok in H. destruct H as (y0 & Hy0 & H).
    apply bind_ok in H. destruct H as (ys0 & Hys0 & H). injection H as <-.
    specialize (IH _ Hys0 y). simpl. rewrite IH. split.
    + intros [<- | (x' & Hin & Hx')]; eauto.
    + intros (x' & [<- | Hin] & Hx'); [left; congruence | right; eauto].
Qed.

Lemma mapM_total {A B : Type} (f : A -> result B) (l : list A) :
  (forall x, In x l -> exists y, f x = Ok y) -> exists ys, mapM f l = Ok ys.
Proof.
  induction l as [|x l IH]; simpl; intros H; [eauto|].
  destruct (H x (or_introl eq_refl)) as (y & ->).
  destruct IH as (ys & ->); [intros; apply H; auto|]. simpl. eauto.
Qed.

Lemma digits_raise (s : string) : forall acc prev e,
  Str.digits s acc prev = Raise e -> e = ValueError.
Proof.
  induction s as [|c s IH]; simpl; intros acc prev e H.
  - destruct prev; congruence.
  - destruct (Str.is_decimal c); [eauto|].
    destruct (Ascii.eqb c "_"); [|congruence].
    destruct prev; [eauto | congruence].
Qed.

Lemma literal_raise (t : string) (e : exn) : Str.literal t = Raise e -> e = ValueError.
Proof.
  unfold Str.literal. intros H. apply bind_raise in H.
  destruct H as [H | (z & _ & H)]; [now apply digits_raise in H|].
  destruct (Nat.leb _ _); congruence.
Qed.

Lemma int_raise (s : string) (e : exn) : Str.int s = Raise e -> e = ValueError.
Proof.
  unfold Str.int. intros H.
  assert (D : forall t, Str.literal t = Raise e -> e = ValueError)
    by (intros t; apply literal_raise).
  assert (DN : forall t, (z <- Str.literal t ;; Ok (- z)%Z) = Raise e -> e = ValueError).
  { intros t Ht. apply bind_raise in Ht. destruct Ht as [Ht | (z & _ & Ht)]; [eauto | discriminate]. }
  destruct (Str.strip s) as [|c t]; [eauto|].
  destruct c as [[] [] [] [] [] [] [] []]; eauto.
Qed.

Section FastMode.

Variable self : Answers.

Lemma convert_arg_raise (arg : string) (e : exn) :
  convert_arg self arg = Raise e -> e = ValueError.
Proof.
  unfold convert_arg. destruct (_ && _); [|discriminate].
  intros H. apply bind_raise in H. destruct H as [H | (z & _ & H)]; [|discriminate].
  now apply int_raise in H.
Qed.

Lemma atom_of_match_raise (answer_set : string) (m : Re.match_obj) (e : exn) :
  In m (Re.finditer REG_ANSWER_SET answer_set) ->
  atom_of_match self m = Raise e -> e = ValueError.
Proof.
  intros Hin. apply finditer_groups in Hin.
  destruct Hin as (pred & args & Hg & _ & _ & Hargs).
  unfold atom_of_match. rewrite Hg.
  destruct Hargs as [-> | (inner & ->)]; [discriminate|].
  unfold asserted. destruct (asserted_parenthesised inner) as [-> ->]. cbn [andb].
  cbn [append]. destruct (negb (_collapse_atoms self)); [|discriminate].
  intros H. apply bind_raise in H. destruct H as [H | (items & _ & H)]; [|discriminate].
  apply mapM_raise in H. destruct H as (arg & _ & H). now apply convert_arg_raise in H.
Qed.

End FastMode.

Section FastModeClaims.
Variable parse_terms : bool -> bool -> bool -> string -> result (list atom).

(** A failure of the fast mode is a failed integer conversion: no other
    exception leaves [_parse_answer] there. *)
Lemma fast_mode_raises_only_ValueError (self : Answers) (answer_set : string) (e : exn) :
  _careful_parsing self = false ->
  _parse_answer parse_terms self answer_set = Raise e -> e = ValueError.
Proof.
  unfold _parse_answer. intros -> H. apply mapM_raise in H.
  destruct H as (m & Hin & H). now apply (atom_of_match_raise self answer_set) in H.
Qed.

(** C10. In the fast mode, every match of [REG_ANSWER_SET] in every input
    string has its second group absent ([None]) or starting with an opening
    and ending with a closing parenthesis; so the condition of the [assert]
    holds at every match and [_parse_answer] never raises AssertionError. *)
Theorem assertion_never_fails (self : Answers) (answer_set : string) :
  _careful_parsing self = false ->
  Forall (fun m =>
            Re.group m 2 = None \/
            exists args, Re.group m 2 = Some args
                         /\ Str.startswith "(" args = true
                         /\ Str.endswith ")" args = true)
         (Re.finditer REG_ANSWER_SET answer_set)
  /\ Forall (fun m => asserted (Re.group m 2) = true)
            (Re.finditer REG_ANSWER_SET answer_set)
  /\ _parse_answer parse_terms self answer_set <> Raise AssertionError.
Proof.
  intros Hfast. split; [|split].
  - apply Forall_forall. intros m Hin. apply finditer_groups in Hin.
    destruct Hin as (pred & args & _ & _ & -> & [-> | (inner & ->)]); [now left|].
    right. eexists. split; [reflexivity|]. apply asserted_parenthesised.
  - apply Forall_forall. intros m Hin. apply finditer_groups in Hin.
    destruct Hin as (pred & args & _ & _ & -> & [-> | (inner & ->)]); [reflexivity|].
    unfold asserted. now destruct (asserted_parenthesised inner) as [-> ->].
  - unfold _parse_answer. rewrite Hfast. intros H.
    apply mapM_raise in H. destruct H as (m & Hin & H).
    apply (atom_of_match_raise self answer_set) in H; [discriminate | exact Hin].
Qed.
End FastModeClaims.

(** ** Equality of values *)

Lemma pyval_eqb_eq (a b : pyval) : pyval_eqb a b = true <-> a = b.
Proof.
  revert b. induction a as [x | s | l IH | p q IHp IHq] using pyval_ind_nested;
    intros [y | t | m | p' q']; simpl; try (split; [discriminate | congruence]).
  - rewrite Z.eqb_eq. split; congruence.
  - rewrite String.eqb_eq. split; congruence.
  - enough (E : (fix items_eqb (l m : list pyval) : bool :=
                   match l, m with
                   | [], [] => true
                   | x :: l', y :: m' => pyval_eqb x y && items_eqb l' m'
                   | _, _ => false
                   end) l m = true <-> l = m)
      by (rewrite E; split; congruence).
    revert m. induction IH as [|x l Hx _ IHl]; intros [|y m];
      try (split; [discriminate | congruence]); [tauto|].
    rewrite andb_true_iff, Hx, IHl. split; [intros [-> ->]; reflexivity | intros [= -> ->]; auto].
  - rewrite andb_true_iff, IHp, IHq. split; [intros [-> ->]; reflexivity | intros [= -> ->]; auto].
Qed.

Lemma pyval_eqb_refl (a : pyval) : pyval_eqb a a = true.
Proof. now apply pyval_eqb_eq. Qed.

Lemma pyval_eqb_neq (a b : pyval) : pyval_eqb a b = false <-> a <> b.
Proof.
  rewrite <- pyval_eqb_eq. destruct (pyval_eqb a b); split; congruence.
Qed.

Lemma pyval_eq_dec (a b : pyval) : {a = b} + {a <> b}.
Proof.
  destruct (pyval_eqb a b) eqn:E; [left; now apply pyval_eqb_eq | right; now apply pyval_eqb_neq].
Qed.

(** ** Sets *)

Lemma mem_In (x : pyval) (s : list pyval) : mem x s = true <-> In x s.
Proof.
  unfold mem. rewrite existsb_exists. split.
  - intros (y & Hy & E). apply pyval_eqb_eq in E. now subst.
  - intros H. exists x. split; [exact H | apply pyval_eqb_refl].
Qed.

Lemma set_add_In (x y : pyval) (s : list pyval) :
  In y (set_add x s) <-> y = x \/ In y s.
Proof.
  unfold set_add. destruct (mem x s) eqn:E.
  - apply mem_In in E. split; [auto | intros [-> | H]; auto].
  - rewrite in_app_iff. simpl. intuition.
Qed.

Lemma set_add_NoDup (x : pyval) (s : list pyval) : NoDup s -> NoDup (set_add x s).
Proof.
  unfold set_add. intros H. destruct (mem x s) eqn:E; [exact H|].
  assert (Hx : ~ In x s) by (rewrite <- mem_In; congruence).
  apply NoDup_rev in H. rewrite <- (rev_involutive (s ++ [x])).
  apply NoDup_rev. rewrite rev_app_distr. simpl. constructor; [|exact H].
  now rewrite <- in_rev.
Qed.

Lemma fold_set_add_In (it s : list pyval) (y : pyval) :
  In y (fold_left (fun s x => set_add x s) it s) <-> In y it \/ In y s.
Proof.
  revert s. induction it as [|x it IH]; intros s; simpl; [tauto|].
  rewrite IH, set_add_In. intuition.
Qed.

Lemma fold_set_add_NoDup (it s : list pyval) :
  NoDup s -> NoDup (fold_left (fun s x => set_add x s) it s).
Proof.
  revert s. induction it as [|x it IH]; intros s H; simpl; [exact H|].
  apply IH. now apply set_add_NoDup.
Qed.

Lemma set_of_In (it : list pyval) (y : pyval) : In y (set_of it) <-> In y it.
Proof. unfold set_of. rewrite fold_set_add_In. simpl. tauto. Qed.

Lemma set_of_NoDup (it : list pyval) : NoDup (set_of it).
Proof. apply fold_set_add_NoDup. constructor. Qed.

(** ** Sorting *)

Section Sorting.

Variable atom_lt : pyval -> pyval -> result bool.

Lemma insert_perm (x : pyval) (l r : list pyval) :
  Py.insert atom_lt x l = Ok r -> Permutation (x :: l) r.
Proof.
  revert r. induction l as [|y l IH]; simpl; intros r H.
  - injection H as <-. apply Permutation_refl.
  - apply bind_ok in H. destruct H as ([] & _ & H).
    + injection H as <-. apply Permutation_refl.
    + apply bind_ok in H. destruct H as (r' & Hr' & H). injection H as <-.
      rewrite perm_swap. apply perm_skip. now apply IH.
Qed.

Lemma sorted_into_perm (it acc r : list pyval) :
  Py.sorted_into atom_lt acc it = Ok r -> Permutation (acc ++ it) r.
Proof.
  revert acc r. induction it as [|x it IH]; simpl; intros acc r H.
  - injection H as <-. now rewrite app_nil_r.
  - apply bind_ok in H. destruct H as (acc' & Hins & H).
    apply IH in H. apply insert_perm in Hins.
    rewrite <- H, <- Hins. simpl. symmetry. apply Permutation_middle.
Qed.

Lemma sorted_perm (it r : list pyval) :
  Py.sorted atom_lt it = Ok r -> Permutation it r.
Proof. apply (sorted_into_perm it []). Qed.

Lemma sorted_In (it r : list pyval) :
  Py.sorted atom_lt it = Ok r -> forall x, In x r <-> In x it.
Proof.
  intros H x. apply sorted_perm in H.
  split; apply Permutation_in; [now symmetry | exact H].
Qed.








(** Strings always compare. *)
Lemma comparable_str (s t : string) : comparable atom_lt (PStr s) (PStr t).
Proof. split; simpl; eauto. Qed.




End Sorting.

(** ** Dictionaries *)

Lemma dict_get_set {V : Type} (k k' : pyval) (v : V) (d : dict V) :
  dict_get k' (dict_set k v d) = if pyval_eqb k k' then Some v else dict_get k' d.
Proof.
  induction d as [|[k0 v0] d IH]; simpl; [reflexivity|].
  destruct (pyval_eqb k0 k) eqn:E0; simpl.
  - apply pyval_eqb_eq in E0. subst k0. now destruct (pyval_eqb k k').
  - rewrite IH. destruct (pyval_eqb k0 k') eqn:E1; [|reflexivity].
    apply pyval_eqb_eq in E1. subst k'.
    destruct (pyval_eqb k k0) eqn:E2; [|reflexivity].
    apply pyval_eqb_eq in E2. subst k0. rewrite pyval_eqb_refl in E0. discriminate.
Qed.

Lemma keys_dict_set {V : Type} (k k' : pyval) (v : V) (d : dict V) :
  In k' (map fst (dict_set k v d)) <-> k' = k \/ In k' (map fst d).
Proof.
  induction d as [|[k0 v0] d IH]; simpl; [intuition|].
  destruct (pyval_eqb k0 k) eqn:E0; simpl.
  - apply pyval_eqb_eq in E0. subst k0. intuition.
  - rewrite IH. intuition.
Qed.

Lemma NoDup_keys_dict_set {V : Type} (k : pyval) (v : V) (d : dict V) :
  NoDup (map fst d) -> NoDup (map fst (dict_set k v d)).
Proof.
  induction d as [|[k0 v0] d IH]; simpl; intros H.
  - constructor; [intros [] | constructor].
  - inversion H as [|? ? Hk0 Hd]; subst.
    destruct (pyval_eqb k0 k) eqn:E0; simpl; [now constructor|].
    constructor; [|now apply IH].
    rewrite keys_dict_set. intros [-> | Hin]; [|contradiction].
    rewrite pyval_eqb_refl in E0. discriminate.
Qed.


Lemma dict_get_In {V : Type} (k : pyval) (v : V) (d : dict V) :
  dict_get k d = Some v -> In (k, v) d.
Proof.
  induction d as [|[k0 v0] d IH]; simpl; [discriminate|].
  destruct (pyval_eqb k0 k) eqn:E0; [|auto].
  apply pyval_eqb_eq in E0. subst k0. intros [= ->]. auto.
Qed.

Lemma members_dict_add (k k' x : pyval) (m : dict (list pyval)) :
  members k' (dict_add k x m)
  = if pyval_eqb k k' then set_add x (members k m) else members k' m.
Proof.
  unfold members, dict_add.
  destruct (dict_get k m) as [s|] eqn:E; rewrite dict_get_set;
    destruct (pyval_eqb k k'); reflexivity.
Qed.

Lemma dict_get_dict_add_None (k k' x : pyval) (m : dict (list pyval)) :
  dict_get k' (dict_add k x m) = None <-> k <> k' /\ dict_get k' m = None.
Proof.
  unfold dict_add.
  destruct (dict_get k m) as [s|] eqn:E; rewrite dict_get_set;
    destruct (pyval_eqb k k') eqn:E';
    (apply pyval_eqb_eq in E' || apply pyval_eqb_neq in E');
    split; try tauto; try discriminate; intros [? ?]; congruence.
Qed.

Lemma NoDup_keys_dict_add (k x : pyval) (m : dict (list pyval)) :
  NoDup (map fst m) -> NoDup (map fst (dict_add k x m)).
Proof. unfold dict_add. destruct (dict_get k m); apply NoDup_keys_dict_set. Qed.

(** ** Grouping by predicate *)

Section Grouping.

Variable self : Answers.

Lemma mapping_ok_nil : mapping_ok [].
Proof. split; [constructor | intros k; constructor]. Qed.

Lemma mapping_ok_add (k x : pyval) (m : dict (list pyval)) :
  mapping_ok m -> mapping_ok (dict_add k x m).
Proof.
  intros [Hk Hs]. split; [now apply NoDup_keys_dict_add|].
  intros k'. rewrite members_dict_add.
  destruct (pyval_eqb k k'); [apply set_add_NoDup|]; apply Hs.
Qed.

Lemma group_items_spec (items : list pyval) :
  Forall is_pair items ->
  forall m, mapping_ok m ->
  exists m',
    group_items self items m = Ok m'
    /\ mapping_ok m'
    /\ (forall k x, In x (members k m') <->
                    In x (members k m)
                    \/ exists a, In (PTuple [k; a]) items /\ x = residual self k a)
    /\ (forall k, dict_get k m' = None <->
                  dict_get k m = None /\ forall a, ~ In (PTuple [k; a]) items).
Proof.
  induction 1 as [|item items (k0 & a0 & ->) _ IH]; intros m Hm; simpl.
  - exists m. split; [reflexivity|]. split; [exact Hm|]. split.
    + intros k x. split; [auto | intros [H | (a & [] & _)]; exact H].
    + intros k. split; [auto | tauto].
  - fold (residual self k0 a0).
    destruct (IH (dict_add k0 (residual self k0 a0) m)) as (m' & -> & Hok & Hmem & Hnone).
    { now apply mapping_ok_add. }
    exists m'. split; [reflexivity|]. split; [exact Hok|]. split.
    + intros k x. rewrite Hmem, members_dict_add.
      destruct (pyval_eqb k0 k) eqn:E.
      * apply pyval_eqb_eq in E. subst k0. rewrite set_add_In. split.
        -- intros [[-> | H] | (a & Hin & ->)]; eauto 6.
        -- intros [H | (a & [[= <-] | Hin] & ->)]; eauto 6.
      * apply pyval_eqb_neq in E. split.
        -- intros [H | (a & Hin & ->)]; eauto 6.
        -- intros [H | (a & [[= <- <-] | Hin] & ->)]; eauto 6. congruence.
    + intros k. rewrite Hnone, dict_get_dict_add_None. split.
      * intros [[Hne Hg] Hno]. split; [exact Hg|].
        intros a [[= <- <-] | Hin]; [congruence | now apply (Hno a)].
      * intros [Hg Hno]. split; [split; [|exact Hg]|].
        -- intros ->. apply (Hno a0). now left.
        -- intros a Hin. apply (Hno a). now right.
Qed.

End Grouping.

(** The dictionary built from [mapping] by applying [g] to each value. *)
Lemma mapM_dict_get {V W : Type} (g : V -> result W) (m : dict V) (d : dict W) :
  mapM (fun '(pred, args) => c <- g args ;; Ok (pred, c)) m = Ok d ->
  forall k,
    (dict_get k m = None /\ dict_get k d = None)
    \/ exists s c, dict_get k m = Some s /\ g s = Ok c /\ dict_get k d = Some c.
Proof.
  revert d. induction m as [|[k0 s0] m IH]; simpl; intros d H k.
  - injection H as <-. now left.
  - apply bind_ok in H. destruct H as ([k1 c0] & H0 & H).
    apply bind_ok in H0. destruct H0 as (c & Hc & [= <- <-]).
    apply bind_ok in H. destruct H as (d' & Hd' & [= <-]). simpl.
    destruct (pyval_eqb k0 k); [right; eauto|]. now apply IH.
Qed.

Section Formatting.

Variable atom_lt : pyval -> pyval -> result bool.

Lemma is_pair_first_arg_items (answer_set : list atom) :
  Forall is_pair (map first_arg_item answer_set).
Proof.
  apply Forall_forall. intros x Hx. apply in_map_iff in Hx.
  destruct Hx as ([pred args] & <- & _). unfold is_pair. simpl. eauto.
Qed.

Lemma is_pair_all_args_items (answer_set : list atom) :
  Forall is_pair (map all_args_item answer_set).
Proof.
  apply Forall_forall. intros x Hx. apply in_map_iff in Hx.
  destruct Hx as ([pred args] & <- & _). unfold is_pair. simpl. eauto.
Qed.

Lemma Forall_same_In {A : Type} (P : A -> Prop) (l l' : list A) :
  (forall x, In x l' -> In x l) -> Forall P l -> Forall P l'.
Proof. rewrite !Forall_forall. auto. Qed.

Lemma sorted_tuple_elements (it : list pyval) (c : container) :
  sorted_tuple atom_lt it = Ok c ->
  (exists l, c = Tuple l /\ Permutation it l) /\ same_elements c (frozenset it).
Proof.
  unfold sorted_tuple. intros H. apply bind_ok in H. destruct H as (l & Hl & [= <-]).
  split; [exists l; split; [reflexivity | now apply sorted_perm in Hl]|].
  split; [now eexists|]. intros x. simpl.
  rewrite (sorted_In _ _ _ Hl), set_of_In. reflexivity.
Qed.

Lemma atom_of_item_total (items : list pyval) :
  Forall is_pair items ->
  exists atoms, mapM atom_of_item items = Ok atoms
                /\ forall x, In x atoms <->
                             exists k a, In (PTuple [k; a]) items /\ x = Atom k a.
Proof.
  intros H. destruct (mapM_total atom_of_item items) as (atoms & Hatoms).
  { rewrite Forall_forall in H. intros x Hx. destruct (H x Hx) as (k & a & ->).
    cbn. eauto. }
  exists atoms. split; [exact Hatoms|]. intros x.
  rewrite (mapM_ok_In _ _ _ Hatoms). split.
  - intros (item & Hin & Hx). rewrite Forall_forall in H.
    destruct (H item Hin) as (k & a & ->). cbn in Hx. injection Hx as <-. eauto.
  - intros (k & a & Hin & ->). exists (PTuple [k; a]). auto.
Qed.

Lemma empty_by_predicate_values (preds : list string) (k : pyval) (c : container) :
  dict_get k (empty_by_predicate preds) = Some c -> c = FrozenSet [].
Proof.
  unfold empty_by_predicate.
  assert (G : forall d : dict container,
             (forall c, dict_get k d = Some c -> c = FrozenSet []) ->
             forall c, dict_get k (fold_left
                                     (fun d pred => dict_set (PStr pred) (frozenset []) d)
                                     preds d) = Some c -> c = FrozenSet []).
  { induction preds as [|p preds IH]; intros d Hd c0; simpl; [apply Hd|].
    apply IH. intros c1. rewrite dict_get_set.
    destruct (pyval_eqb (PStr p) k); [intros [= <-]; reflexivity | apply Hd]. }
  apply G. discriminate.
Qed.

End Formatting.

Lemma same_elements_refl_empty : same_elements (FrozenSet []) (FrozenSet []).
Proof. split; [now eexists | tauto]. Qed.

Section SortedVsSet.

Variable atom_lt : pyval -> pyval -> result bool.
Variable self : Answers.
Hypothesis unsorted : _sorted self = false.

Lemma builder_unsorted (it : list pyval) : builder atom_lt self it = Ok (frozenset it).
Proof. unfold builder. now rewrite unsorted. Qed.

Lemma builder_sorted (it : list pyval) :
  builder atom_lt (sorted self) it = sorted_tuple atom_lt it.
Proof. reflexivity. Qed.

(** The part of [_format] below the first call of [builder], on the items
    [L] handed to that call. *)
Lemma format_rest_sorted_vs_set (L : list pyval) (v : formatted) :
  Forall is_pair L ->
  (answer_set <- builder atom_lt (sorted self) L ;;
   if _group_atoms self then
     mapping <- group_items (sorted self) (elements answer_set) [] ;;
     d <- mapM (fun '(pred, args) =>
                  c <- builder atom_lt (sorted self) args ;; Ok (pred, c)) mapping ;;
     Ok (Grouped d)
   else if _as_pyasp self then
     atoms <- mapM atom_of_item (elements answer_set) ;;
     c <- builder atom_lt (sorted self) atoms ;; Ok (Flat c)
   else Ok (Flat answer_set)) = Ok v ->
  exists u,
    (answer_set <- builder atom_lt self L ;;
     if _group_atoms self then
       mapping <- group_items self (elements answer_set) [] ;;
       d <- mapM (fun '(pred, args) =>
                    c <- builder atom_lt self args ;; Ok (pred, c)) mapping ;;
       Ok (Grouped d)
     else if _as_pyasp self then
       atoms <- mapM atom_of_item (elements answer_set) ;;
       c <- builder atom_lt self atoms ;; Ok (Flat c)
     else Ok (Flat answer_set)) = Ok u
    /\ same_elements_formatted v u.
Proof.
  intros HL H. rewrite builder_unsorted. cbn [bind].
  apply bind_ok in H. destruct H as (c1 & Hc1 & H).
  rewrite builder_sorted in Hc1. apply sorted_tuple_elements in Hc1.
  destruct Hc1 as ((l' & -> & Hperm) & Hsame). cbn [elements frozenset] in *.
  assert (Hl' : forall x, In x l' <-> In x L).
  { intros x. split; apply Permutation_in; [now symmetry | exact Hperm]. }
  assert (Hs' : forall x, In x (set_of L) <-> In x L) by (intros x; apply set_of_In).
  assert (HL' : Forall is_pair l') by (eapply Permutation_Forall; eauto).
  assert (HLs : Forall is_pair (set_of L)).
  { apply (Forall_same_In _ L); [|exact HL]. intros x. now rewrite set_of_In. }
  destruct (_group_atoms self).
  - (* grouped *)
    apply bind_ok in H. destruct H as (m1 & Hm1 & H).
    apply bind_ok in H. destruct H as (d1 & Hd1 & [= <-]).
    destruct (group_items_spec (sorted self) l' HL' [] mapping_ok_nil)
      as (m1' & Hm1' & _ & Hmem1 & Hnone1).
    rewrite Hm1 in Hm1'. injection Hm1' as <-.
    destruct (group_items_spec self (set_of L) HLs [] mapping_ok_nil)
      as (m2 & -> & _ & Hmem2 & Hnone2). cbn [bind].
    destruct (mapM_total (fun '(pred, args) =>
                            c <- builder atom_lt self args ;; Ok (pred, c)) m2)
      as (d2 & Hd2).
    { intros [k s] _. rewrite builder_unsorted. cbn. eauto. }
    rewrite Hd2. cbn [bind]. eexists. split; [reflexivity|].
    intros k.
    assert (Hkey : dict_get k m1 = None <-> dict_get k m2 = None).
    { rewrite Hnone1, Hnone2. split; intros [_ Hno]; (split; [reflexivity|]);
        intros a Ha; apply (Hno a).
      - apply Hl'. now apply Hs'.
      - apply Hs'. now apply Hl'. }
    assert (Hmem : forall x, In x (members k m1) <-> In x (members k m2)).
    { intros x. rewrite Hmem1, Hmem2. cbn [members dict_get].
      split; (intros [[] | (a & Ha & ->)]; right; exists a; split; [|reflexivity]).
      - apply Hs'. now apply Hl'.
      - apply Hl'. now apply Hs'. }
    destruct (mapM_dict_get _ _ _ Hd1 k) as [[Hn1 ->] | (s1 & c1 & Hs1 & Hb1 & ->)];
      destruct (mapM_dict_get _ _ _ Hd2 k) as [[Hn2 ->] | (s2 & c2 & Hs2 & Hb2 & ->)].
    + exact I.
    + apply Hkey in Hn1. congruence.
    + apply Hkey in Hn2. congruence.
    + rewrite builder_sorted in Hb1. apply sorted_tuple_elements in Hb1.
      destruct Hb1 as (_ & (_ & Hb1)).
      rewrite builder_unsorted in Hb2. injection Hb2 as <-.
      split; [now eexists|]. intros x. rewrite Hb1. cbn [elements frozenset].
      rewrite !set_of_In. unfold members in Hmem. rewrite Hs1, Hs2 in Hmem. apply Hmem.
  - destruct (_as_pyasp self).
    + (* wrapped as atoms *)
      apply bind_ok in H. destruct H as (atoms1 & Ha1 & H).
      apply bind_ok in H. destruct H as (c & Hc & [= <-]).
      destruct (atom_of_item_total l' HL') as (atoms1' & Ha1' & Hin1).
      rewrite Ha1 in Ha1'. injection Ha1' as <-.
      destruct (atom_of_item_total (set_of L) HLs) as (atoms2 & -> & Hin2).
      cbn [bind]. rewrite builder_unsorted. cbn [bind].
      eexists. split; [reflexivity|].
      rewrite builder_sorted in Hc. apply sorted_tuple_elements in Hc.
      destruct Hc as (_ & (_ & Hc)). split; [now eexists|].
      intros x. rewrite Hc. cbn [elements frozenset]. rewrite !set_of_In, Hin1, Hin2.
      split; intros (k & a & Ha & ->); exists k, a; (split; [|reflexivity]).
      * apply Hs'. now apply Hl'.
      * apply Hl'. now apply Hs'.
    + injection H as <-. eexists. split; [reflexivity|]. exact Hsame.
Qed.

End SortedVsSet.

Section SortedVsSetClaim.
Variable atom_lt : pyval -> pyval -> result bool.

(** C4, as amended. For every parsed answer set and every setting of the
    other options: when formatting with [sorted] returns a value, formatting
    without it returns one too, built of frozensets, and the two have the
    same elements (key by key when the atoms are grouped). *)
Theorem sorted_same_elements (self : Answers) (answer_set : list atom) (v : formatted) :
  _sorted self = false ->
  _format atom_lt (sorted self) answer_set = Ok v ->
  exists u, _format atom_lt self answer_set = Ok u /\ same_elements_formatted v u.
Proof.
  intros Hs H. unfold _format in *.
  change (_ignore_args (sorted self)) with (_ignore_args self) in H.
  change (_group_atoms (sorted self)) with (_group_atoms self) in H.
  change (_as_pyasp (sorted self)) with (_as_pyasp self) in H.
  change (_first_arg_only (sorted self)) with (_first_arg_only self) in H.
  destruct (_ignore_args self).
  - destruct (_group_atoms self).
    + injection H as <-. eexists. split; [reflexivity|].
      intros k. destruct (dict_get k _) as [c|] eqn:E; [|exact I].
      apply empty_by_predicate_values in E. subst c. apply same_elements_refl_empty.
    + rewrite !(builder_unsorted atom_lt self Hs).
      destruct (_as_pyasp self);
        apply bind_ok in H; destruct H as (c & Hc & [= <-]);
        apply sorted_tuple_elements in Hc; destruct Hc as (_ & Hc);
        eexists; (split; [reflexivity | exact Hc]).
  - destruct (_first_arg_only self).
    + apply (format_rest_sorted_vs_set atom_lt self Hs _ v (is_pair_first_arg_items _) H).
    + apply (format_rest_sorted_vs_set atom_lt self Hs _ v (is_pair_all_args_items _) H).
Qed.
End SortedVsSetClaim.

Section SortedSucceeds.

Variable atom_lt : pyval -> pyval -> result bool.
Variable self : Answers.
Hypothesis is_sorted : _sorted self = true.
Hypothesis atoms_compare :
  _as_pyasp self = true ->
  forall p a q b, exists r, atom_lt (PAtom p a) (PAtom q b) = Ok r.




End SortedSucceeds.

Section SortedSucceedsClaim.
Variable atom_lt : pyval -> pyval -> result bool.

End SortedSucceedsClaim.


(** ** The order of strings *)





Section SortedStrings.

Variable atom_lt : pyval -> pyval -> result bool.




End SortedStrings.

Section DiscardAndFirstArg.
Variable atom_lt : pyval -> pyval -> result bool.

Lemma builder_elements (self : Answers) (it : list pyval) (c : container) :
  builder atom_lt self it = Ok c ->
  (forall x, In x (elements c) <-> In x it)
  /\ match c with
     | Tuple l => _sorted self = true /\ Permutation it l
     | FrozenSet l => _sorted self = false /\ NoDup l
     end.
Proof.
  unfold builder. destruct (_sorted self).
  - intros H. apply sorted_tuple_elements in H.
    destruct H as ((l & -> & Hperm) & (_ & Hin)). split; [|auto].
    intros x. rewrite Hin. apply set_of_In.
  - intros [= <-]. split; [intros x; apply set_of_In|].
    split; [reflexivity | apply set_of_NoDup].
Qed.


(** C7, as amended. With [first_arg_only] active and [no_arg] not, an atom
    whose arguments were parsed to a tuple is formatted as the pair of its
    predicate and its first argument, not enclosed in a tuple, or of its
    predicate and the empty tuple when it has no argument; an atom whose
    arguments were left as one string is formatted as the pair of its
    predicate and the first character of that string. The result holds
    exactly these pairs (as atoms under [as_pyasp], under their predicate
    when grouped). *)
Theorem first_arg_only_keeps_first_argument (self : Answers) (answer_set : list atom)
        (v : formatted) :
  _ignore_args self = false ->
  _first_arg_only self = true ->
  _format atom_lt self answer_set = Ok v ->
  (* what is kept of the arguments of an atom *)
  let kept (args : args_t) : pyval :=
    match args with
    | ArgTuple (x :: _) => x
    | ArgTuple [] => PTuple []
    | ArgStr (String ch _) => PStr (String ch EmptyString)
    | ArgStr EmptyString => PTuple []
    end in
  (* plain: the container holds exactly the pairs *)
  (_group_atoms self = false -> _as_pyasp self = false ->
   exists c, v = Flat c
             /\ forall y, In y (elements c) <->
                          exists pred args, In (pred, args) answer_set
                                            /\ y = PTuple [PStr pred; kept args])
  (* as_pyasp: the same pairs as atoms *)
  /\ (_group_atoms self = false -> _as_pyasp self = true ->
      exists c, v = Flat c
                /\ forall y, In y (elements c) <->
                             exists pred args, In (pred, args) answer_set
                                               /\ y = Atom (PStr pred) (kept args))
  (* grouped: under each predicate, what is kept of its atoms *)
  /\ (_group_atoms self = true ->
      exists d, v = Grouped d
                /\ forall k y,
                    (exists c, dict_get k d = Some c /\ In y (elements c)) <->
                    exists pred args, In (pred, args) answer_set /\ k = PStr pred
                                      /\ y = residual self k (kept args)).
Proof.
  intros Hi Hf H kept. unfold _format in H. rewrite Hi, Hf in H.
  assert (K : forall args, first_or_unit args = kept args)
    by (intros [[|? ?]|[|? ?]]; reflexivity).
  apply bind_ok in H. destruct H as (c0 & Hc0 & H).
  apply builder_elements in Hc0. destruct Hc0 as [Hc0 _].
  assert (HP : Forall is_pair (elements c0)).
  { apply (Forall_same_In _ (map first_arg_item answer_set));
      [intros x; apply Hc0 | apply is_pair_first_arg_items]. }
  assert (Hitems : forall k a, In (PTuple [k; a]) (elements c0) <->
                               exists pred args, In (pred, args) answer_set
                                                 /\ k = PStr pred /\ a = kept args).
  { intros k a. rewrite Hc0, in_map_iff. split.
    - intros ([pred args] & E & Hin). cbn [first_arg_item] in E. rewrite K in E.
      injection E as <- <-. eauto.
    - intros (pred & args & Hin & -> & ->). exists (pred, args).
      split; [cbn [first_arg_item]; now rewrite K | exact Hin]. }
  split; [|split].
  - intros Hg Hp. rewrite Hg, Hp in H. injection H as <-.
    exists c0. split; [reflexivity|]. intros y. rewrite Hc0, in_map_iff. split.
    + intros ([pred args] & <- & Hin). exists pred, args.
      split; [exact Hin|]. cbn [first_arg_item]. now rewrite K.
    + intros (pred & args & Hin & ->). exists (pred, args).
      split; [cbn [first_arg_item]; now rewrite K | exact Hin].
  - intros Hg Hp. rewrite Hg, Hp in H.
    apply bind_ok in H. destruct H as (atoms & Hatoms & H).
    apply bind_ok in H. destruct H as (c & Hc & [= <-]).
    exists c. split; [reflexivity|].
    apply builder_elements in Hc. destruct Hc as [Hc _].
    destruct (atom_of_item_total _ HP) as (atoms' & Hatoms' & Hin).
    rewrite Hatoms in Hatoms'. injection Hatoms' as <-.
    intros y. rewrite Hc, Hin. split.
    + intros (k & a & Hka & ->). apply Hitems in Hka.
      destruct Hka as (pred & args & Hpa & -> & ->). eauto.
    + intros (pred & args & Hpa & ->). exists (PStr pred), (kept args).
      split; [|reflexivity]. apply Hitems. eauto.
  - intros Hg. rewrite Hg in H.
    apply bind_ok in H. destruct H as (m & Hm & H).
    apply bind_ok in H. destruct H as (d & Hd & [= <-]).
    exists d. split; [reflexivity|].
    destruct (group_items_spec self _ HP [] mapping_ok_nil)
      as (m' & Hm' & _ & Hmem & _).
    rewrite Hm in Hm'. injection Hm' as <-.
    intros k y.
    assert (Hd' : (exists c, dict_get k d = Some c /\ In y (elements c))
                  <-> In y (members k m)).
    { unfold members.
      destruct (mapM_dict_get _ _ _ Hd k) as [[-> ->] | (s & c & -> & Hb & ->)].
      - split; [intros (c & [=] & _) | intros []].
      - apply builder_elements in Hb. destruct Hb as [Hb _]. split.
        + intros (c' & [= <-] & Hy). now apply Hb.
        + intros Hy. exists c. split; [reflexivity | now apply Hb]. }
    rewrite Hd', Hmem. cbn [members dict_get]. split.
    + intros [[] | (a & Ha & ->)]. apply Hitems in Ha.
      destruct Ha as (pred & args & Hpa & -> & ->). eauto.
    + intros (pred & args & Hpa & -> & ->). right. exists (kept args).
      split; [|reflexivity]. apply Hitems. eauto.
Qed.
End DiscardAndFirstArg.

(** ** Iteration *)

Lemma with_answers_same (self : Answers) : with_answers self (_answers self) = self.
Proof. now destruct self. Qed.

Lemma next_None (it it' : Py.list_iterator) :
  Py.next it = (None, it') -> it' = it /\ Py.next it' = (None, it').
Proof.
  unfold Py.next. destruct (nth_error _ _) eqn:E; [discriminate|].
  intros [= <-]. now rewrite E.
Qed.

Lemma next_Some (it it' : Py.list_iterator) (x : string) :
  Py.next it = (Some x, it') ->
  Py.it_index it < List.length (Py.it_seq it)
  /\ Py.it_seq it' = Py.it_seq it /\ Py.it_index it' = S (Py.it_index it).
Proof.
  unfold Py.next. destruct (nth_error _ _) eqn:E; [|discriminate].
  intros [= _ <-]. split; [|auto]. apply nth_error_Some. congruence.
Qed.

Section Iteration.

Variable parse_terms : bool -> bool -> bool -> string -> result (list atom).
Variable atom_lt : pyval -> pyval -> result bool.

Lemma resume_None (self self' : Answers) :
  resume parse_terms atom_lt self = (None, self') ->
  self' = self /\ resume parse_terms atom_lt self' = (None, self').
Proof.
  unfold resume. destruct (Py.next (_answers self)) as [[x|] it] eqn:E; [discriminate|].
  intros [= <-]. apply next_None in E. destruct E as [-> E].
  rewrite with_answers_same. split; [reflexivity|].
  rewrite E. now rewrite with_answers_same.
Qed.

Lemma resume_Some (self self' : Answers) (r : result formatted) :
  resume parse_terms atom_lt self = (Some r, self') ->
  Py.it_index (_answers self) < List.length (Py.it_seq (_answers self))
  /\ Py.it_seq (_answers self') = Py.it_seq (_answers self)
  /\ Py.it_index (_answers self') = S (Py.it_index (_answers self)).
Proof.
  unfold resume. destruct (Py.next (_answers self)) as [[x|] it] eqn:E; [|discriminate].
  intros [= _ <-]. now apply next_Some in E.
Qed.

Lemma iterate_fuel_total (fuel : nat) : forall self,
  List.length (Py.it_seq (_answers self)) - Py.it_index (_answers self) <= fuel ->
  exists vs e self', iterate_fuel parse_terms atom_lt fuel self = Some (vs, e, self').
Proof.
  induction fuel as [|fuel IH]; intros self Hfuel; simpl;
    destruct (resume parse_terms atom_lt self) as [[[v|e]|] self'] eqn:E; eauto.
  - apply resume_Some in E. lia.
  - apply resume_Some in E. destruct E as (Hlt & Hseq & Hidx).
    destruct (IH self') as (vs & e & self'' & ->); [rewrite Hseq, Hidx; lia|]. eauto.
Qed.

(** A complete iteration always ends: the fuel of [iterate] is enough. *)
Theorem iterate_total (self : Answers) :
  exists vs e self', iterate parse_terms atom_lt self = Some (vs, e, self').
Proof. apply iterate_fuel_total. lia. Qed.

Lemma iterate_fuel_exhausted (fuel : nat) : forall self vs self',
  iterate_fuel parse_terms atom_lt fuel self = Some (vs, Exhausted, self') ->
  resume parse_terms atom_lt self' = (None, self').
Proof.
  induction fuel as [|fuel IH]; intros self vs self' H; simpl in H;
    destruct (resume parse_terms atom_lt self) as [[[v|e]|] self1] eqn:E;
    try discriminate.
  - injection H as _ <-. now apply resume_None in E.
  - destruct (iterate_fuel parse_terms atom_lt fuel self1) as [[[vs1 e1] s1]|] eqn:E1;
      [|discriminate].
    injection H as _ -> <-. eapply IH; eauto.
  - injection H as _ <-. now apply resume_None in E.
Qed.

(** C1, as amended. The [Answers] object holds one iterator over its
    source, taken at construction: after a complete iteration, a second
    iteration yields nothing, even though the source is a list. *)
Theorem second_iteration_is_empty (self self' : Answers) (vs : list formatted) :
  iterate parse_terms atom_lt self = Some (vs, Exhausted, self') ->
  iterate parse_terms atom_lt self' = Some ([], Exhausted, self').
Proof.
  intros H. apply iterate_fuel_exhausted in H.
  unfold iterate. destruct (_ - _); simpl; now rewrite H.
Qed.

(** C2. Whatever the [Answers] object and the options activated before
    (among them [atoms_as_string]), after [parse_args] careful parsing is on
    and both collapse flags are off, and [_parse_answer] calls the careful
    parser with no collapsing. *)
Theorem parse_args_forces_careful_parsing
        (self : Answers) (prior : list option_name) (answer_set : string) :
  let self' := parse_args (activate_all self prior) in
  _careful_parsing self' = true
  /\ _collapse_atoms self' = false
  /\ _collapse_args self' = false
  /\ _parse_answer parse_terms self' answer_set
     = parse_terms false false (_parse_int self') answer_set.
Proof. cbn. auto. Qed.

(** C8. The answer sets "d a", "d b", "d c", "e" and "" with [no_arg]
    active give, in this order, the sets of predicate names {d,a}, {d,b},
    {d,c}, {e} and the empty set. *)
Theorem discard_args_scenario (command : string) :
  exists self',
    iterate parse_terms atom_lt (no_arg (__init__ ["d a"; "d b"; "d c"; "e"; ""] command))
    = Some ([Flat (FrozenSet [PStr "d"; PStr "a"]);
             Flat (FrozenSet [PStr "d"; PStr "b"]);
             Flat (FrozenSet [PStr "d"; PStr "c"]);
             Flat (FrozenSet [PStr "e"]);
             Flat (FrozenSet [])],
            Exhausted, self').
Proof. eexists. vm_compute. reflexivity. Qed.

(** C9. The answer set "rel(a,c) rel(a,d) rel(b,d) rel(b,e)" with
    [by_predicate] and [first_arg_only] active (and [sorted] not) gives the
    dict that maps "rel" to the set {a, b}: a first argument met twice is
    kept once. *)
Theorem group_first_arg_scenario (command : string) :
  exists self',
    iterate parse_terms atom_lt
            (first_arg_only
               (by_predicate (__init__ ["rel(a,c) rel(a,d) rel(b,d) rel(b,e)"] command)))
    = Some ([Grouped [(PStr "rel", FrozenSet [PStr "a"; PStr "b"])]], Exhausted, self').
Proof. eexists. vm_compute. reflexivity. Qed.

End Iteration.

(** ** Integer arguments *)

Lemma app_nil_r_str (s : string) : (s ++ EmptyString)%string = s.
Proof. induction s as [|c s IH]; simpl; [reflexivity | now rewrite IH]. Qed.

Lemma rev_acc_app (s acc : string) : Str.rev_acc s acc = (Str.rev s ++ acc)%string.
Proof.
  unfold Str.rev. revert acc. induction s as [|c s IH]; intros acc; simpl; [reflexivity|].
  rewrite IH, (IH (String c EmptyString)), app_assoc_str. reflexivity.
Qed.

Lemma rev_app (a b : string) : Str.rev (a ++ b) = (Str.rev b ++ Str.rev a)%string.
Proof.
  induction a as [|c a IH]; simpl.
  - unfold Str.rev at 3. simpl. now rewrite app_nil_r_str.
  - unfold Str.rev. simpl. rewrite !(rev_acc_app _ (String c EmptyString)).
    fold (Str.rev (a ++ b)). fold (Str.rev a). rewrite IH. apply app_assoc_str.
Qed.

Lemma str_rev_involutive (s : string) : Str.rev (Str.rev s) = s.
Proof.
  induction s as [|c s IH]; [reflexivity|].
  unfold Str.rev at 2. simpl. rewrite rev_acc_app, rev_app, IH. reflexivity.
Qed.

Lemma decimal_not_space (c : ascii) : Str.is_decimal c = true -> Str.is_space c = false.
Proof.
  unfold Str.is_decimal, Str.is_space, Str.in_range.
  rewrite !andb_true_iff, !Nat.leb_le. intros [H1 H2].
  repeat rewrite orb_false_iff. repeat split; apply andb_false_iff;
    rewrite !Nat.leb_gt; lia.
Qed.

Lemma lstrip_decimal (c : ascii) (t : string) :
  Str.is_space c = false -> Str.lstrip (String c t) = String c t.
Proof. intros H. simpl. now rewrite H. Qed.

Lemma all_decimal_rev (t : string) :
  Str.all_chars Str.is_decimal t = true ->
  Str.all_chars Str.is_decimal (Str.rev t) = true.
Proof.
  assert (A : forall a b, Str.all_chars Str.is_decimal (a ++ b)
                          = Str.all_chars Str.is_decimal a && Str.all_chars Str.is_decimal b).
  { induction a as [|c a IH]; intros b; simpl; [reflexivity|].
    now rewrite IH, andb_assoc. }
  induction t as [|c t IH]; [reflexivity|]. simpl.
  rewrite andb_true_iff. intros [Hc Ht].
  unfold Str.rev. simpl. rewrite rev_acc_app, A, (IH Ht). simpl. now rewrite Hc.
Qed.

(** Stripping leaves a sign followed by decimal digits as it is. *)
Lemma strip_signed_decimal (c : ascii) (t : string) :
  Str.is_space c = false ->
  Str.all_chars Str.is_decimal t = true ->
  Str.strip (String c t) = String c t.
Proof.
  intros Hc Ht. unfold Str.strip. rewrite (lstrip_decimal c t Hc).
  enough (E : Str.lstrip (Str.rev (String c t)) = Str.rev (String c t))
    by (rewrite E; apply str_rev_involutive).
  assert (R : Str.rev (String c t) = (Str.rev t ++ String c EmptyString)%string)
    by (unfold Str.rev; simpl; apply rev_acc_app).
  rewrite R. apply all_decimal_rev in Ht.
  destruct (Str.rev t) as [|d r]; simpl; [now rewrite Hc|].
  simpl in Ht. apply andb_true_iff in Ht. destruct Ht as [Hd _].
  now rewrite (decimal_not_space d Hd).
Qed.

Lemma digits_decimal (t : string) : forall acc prev,
  Str.all_chars Str.is_decimal t = true ->
  t <> EmptyString \/ prev = true ->
  Str.digits t acc prev = Ok (decimal_number t acc).
Proof.
  induction t as [|c t IH]; intros acc prev Hall Hne; simpl.
  - destruct Hne as [Hne | ->]; [congruence | reflexivity].
  - simpl in Hall. apply andb_true_iff in Hall. destruct Hall as [Hc Ht].
    rewrite Hc. apply IH; auto.
Qed.

Lemma count_digits_decimal (t : string) :
  Str.all_chars Str.is_decimal t = true -> Str.count_digits t = String.length t.
Proof.
  induction t as [|c t IH]; [reflexivity|]. cbn [Str.all_chars Str.count_digits String.length].
  rewrite andb_true_iff. intros [-> Ht]. now rewrite IH.
Qed.

Lemma literal_decimal (t : string) :
  t <> EmptyString ->
  String.length t <= Str.int_max_str_digits ->
  Str.all_chars Str.is_decimal t = true ->
  Str.literal t = Ok (decimal_number t 0).
Proof.
  intros Hne Hlen Hall. unfold Str.literal.
  rewrite (digits_decimal t 0 false Hall (or_introl Hne)). cbn [bind].
  rewrite (count_digits_decimal t Hall).
  apply Nat.leb_le in Hlen. now rewrite Hlen.
Qed.

Lemma int_decimal (t : string) :
  t <> EmptyString ->
  String.length t <= Str.int_max_str_digits ->
  Str.all_chars Str.is_decimal t = true ->
  Str.int t = Ok (decimal_number t 0)
  /\ Str.int (String "-" t) = Ok (- decimal_number t 0)%Z.
Proof.
  intros Hne Hlen Hall. unfold Str.int. split.
  - destruct t as [|c t]; [congruence|].
    pose proof Hall as Hall'. cbn [Str.all_chars] in Hall'. apply andb_true_iff in Hall'.
    destruct Hall' as [Hc Ht].
    rewrite (strip_signed_decimal c t (decimal_not_space c Hc) Ht).
    rewrite <- (literal_decimal (String c t) Hne Hlen Hall).
    destruct c as [[] [] [] [] [] [] [] []]; try reflexivity; discriminate Hc.
  - rewrite (strip_signed_decimal "-" t eq_refl Hall).
    now rewrite (literal_decimal t Hne Hlen Hall).
Qed.

Lemma decimal_is_numeric (t : string) :
  t <> EmptyString -> Str.all_chars Str.is_decimal t = true -> Str.isnumeric t = true.
Proof.
  intros Hne Hall. unfold Str.isnumeric. destruct t as [|c t]; [congruence|].
  clear Hne. revert Hall. generalize (String c t). intros s.
  induction s as [|d s IH]; simpl; [reflexivity|].
  rewrite !andb_true_iff. intros [Hd Hs]. split; [|auto].
  unfold Str.is_numeric_char. now rewrite Hd.
Qed.

Lemma startswith_char (a c : ascii) (t : string) :
  Str.startswith (String a EmptyString) (String c t)
  = if ascii_dec a c then true else false.
Proof. unfold Str.startswith. cbn [prefix]. destruct (ascii_dec a c). all: now destruct t. Qed.

Section ConvertArg.

Variable self : Answers.

(** An argument made of decimal digits, with or without a minus sign, is
    converted to the integer it denotes, up to the number of digits that
    [int] accepts. *)
Theorem convert_arg_decimal (t : string) :
  _parse_int self = true ->
  t <> EmptyString ->
  String.length t <= 4300 ->
  Str.all_chars Str.is_decimal t = true ->
  convert_arg self t = Ok (PInt (decimal_number t 0))
  /\ convert_arg self (String "-" t) = Ok (PInt (- decimal_number t 0)).
Proof.
  intros Hp Hne Hlen Hall. destruct (int_decimal t Hne Hlen Hall) as [E1 E2].
  pose proof (decimal_is_numeric t Hne Hall) as Hnum.
  unfold convert_arg. rewrite Hp. cbn [andb]. split.
  - replace (Str.startswith "-" t) with false.
    + now rewrite Hnum, E1.
    + destruct t as [|c t']; [congruence|]. simpl in Hall.
      apply andb_true_iff in Hall. destruct Hall as [Hc _].
      rewrite startswith_char.
      destruct (ascii_dec "-" c) as [<-|]; [discriminate Hc | reflexivity].
  - replace (Str.startswith "-" (String "-" t)) with true.
    + cbn [Str.slice_from_1]. now rewrite Hnum, E2.
    + rewrite startswith_char. now destruct (ascii_dec "-" "-").
Qed.

(** With integer parsing off, or for an argument that is not numeric, the
    argument is kept as a string. *)
Lemma convert_arg_kept (arg : string) :
  _parse_int self = false
  \/ Str.isnumeric (if Str.startswith "-" arg then Str.slice_from_1 arg else arg) = false ->
  convert_arg self arg = Ok (PStr arg).
Proof.
  unfold convert_arg. intros [-> | ->]; [reflexivity | now rewrite andb_false_r].
Qed.

End ConvertArg.

(** ** Closed examples *)

(** C1, the claim as stated fails: an [Answers] object over the list ["a"]
    yields one value the first time it is iterated and none the second
    time. *)
Lemma second_iteration_differs :
  iterate no_careful_parser no_atom_order (__init__ ["a"] "")
  = Some ([Flat (FrozenSet [PTuple [PStr "a"; PTuple []]])], Exhausted,
          with_answers (__init__ ["a"] "") (Py.ListIterator ["a"] 1))
  /\ iterate no_careful_parser no_atom_order
             (with_answers (__init__ ["a"] "") (Py.ListIterator ["a"] 1))
     = Some ([], Exhausted, with_answers (__init__ ["a"] "") (Py.ListIterator ["a"] 1)).
Proof. split; reflexivity. Qed.

Lemma second_iteration_is_empty_witness :
  iterate no_careful_parser no_atom_order (__init__ ["a"; "b(1)"] "")
  = Some ([Flat (FrozenSet [PTuple [PStr "a"; PTuple []]]);
           Flat (FrozenSet [PTuple [PStr "b"; PTuple [PInt 1]]])], Exhausted,
          with_answers (__init__ ["a"; "b(1)"] "") (Py.ListIterator ["a"; "b(1)"] 2))
  /\ iterate no_careful_parser no_atom_order
             (with_answers (__init__ ["a"; "b(1)"] "") (Py.ListIterator ["a"; "b(1)"] 2))
     = Some ([], Exhausted,
             with_answers (__init__ ["a"; "b(1)"] "") (Py.ListIterator ["a"; "b(1)"] 2)).
Proof.
  assert (H : iterate no_careful_parser no_atom_order (__init__ ["a"; "b(1)"] "")
              = Some ([Flat (FrozenSet [PTuple [PStr "a"; PTuple []]]);
                       Flat (FrozenSet [PTuple [PStr "b"; PTuple [PInt 1]]])], Exhausted,
                      with_answers (__init__ ["a"; "b(1)"] "")
                                   (Py.ListIterator ["a"; "b(1)"] 2)))
    by reflexivity.
  split; [exact H|].
  exact (second_iteration_is_empty no_careful_parser no_atom_order _ _ _ H).
Defined.


(** C4, the claim as stated fails: the answer set "q(a,1) q(a,b)" parses;
    formatted without [sorted] it is the frozenset of its two pairs, and
    formatted with [sorted] it raises TypeError, so that there is no sorted
    output whose elements could be compared. *)
Lemma sorted_raises_where_set_is_returned :
  _parse_answer no_careful_parser (__init__ [] "") "q(a,1) q(a,b)"
  = Ok [("q", ArgTuple [PStr "a"; PInt 1]); ("q", ArgTuple [PStr "a"; PStr "b"])]
  /\ _format no_atom_order (__init__ [] "")
             [("q", ArgTuple [PStr "a"; PInt 1]); ("q", ArgTuple [PStr "a"; PStr "b"])]
     = Ok (Flat (FrozenSet [PTuple [PStr "q"; PTuple [PStr "a"; PInt 1]];
                            PTuple [PStr "q"; PTuple [PStr "a"; PStr "b"]]]))
  /\ _format no_atom_order (sorted (__init__ [] ""))
             [("q", ArgTuple [PStr "a"; PInt 1]); ("q", ArgTuple [PStr "a"; PStr "b"])]
     = Raise TypeError.
Proof. split; [|split]; reflexivity. Qed.

(** C7, the claim as stated fails: with [atoms_as_string] the arguments of
    "p(abc,d)" are left as the string "abc,d", and [first_arg_only] keeps
    its first character "a", which is not the first argument "abc". *)
Lemma first_arg_only_keeps_first_character :
  _parse_answer no_careful_parser (first_arg_only (atoms_as_string (__init__ [] "")))
                "p(abc,d)"
  = Ok [("p", ArgStr "abc,d")]
  /\ _format no_atom_order (first_arg_only (atoms_as_string (__init__ [] "")))
             [("p", ArgStr "abc,d")]
     = Ok (Flat (FrozenSet [PTuple [PStr "p"; PStr "a"]]))
  /\ PTuple [PStr "p"; PStr "a"] <> PTuple [PStr "p"; PStr "abc"].
Proof. split; [|split]; [reflexivity | reflexivity | discriminate]. Qed.


Lemma sorted_same_elements_witness :
  _sorted (__init__ [] "") = false
  /\ _format no_atom_order (sorted (__init__ [] ""))
             [("p", ArgTuple [PInt 2]); ("p", ArgTuple [PInt 1]); ("p", ArgTuple [PInt 2])]
     = Ok (Flat (Tuple [PTuple [PStr "p"; PTuple [PInt 1]];
                        PTuple [PStr "p"; PTuple [PInt 2]];
                        PTuple [PStr "p"; PTuple [PInt 2]]]))
  /\ exists u,
      _format no_atom_order (__init__ [] "")
              [("p", ArgTuple [PInt 2]); ("p", ArgTuple [PInt 1]); ("p", ArgTuple [PInt 2])]
      = Ok u
      /\ same_elements_formatted
           (Flat (Tuple [PTuple [PStr "p"; PTuple [PInt 1]];
                         PTuple [PStr "p"; PTuple [PInt 2]];
                         PTuple [PStr "p"; PTuple [PInt 2]]])) u.
Proof.
  split; [reflexivity|]. split; [reflexivity|].
  apply (sorted_same_elements no_atom_order (__init__ [] "")); reflexivity.
Defined.


Lemma first_arg_only_keeps_first_argument_witness :
  _ignore_args (first_arg_only (__init__ [] "")) = false
  /\ _first_arg_only (first_arg_only (__init__ [] "")) = true
  /\ _format no_atom_order (first_arg_only (__init__ [] ""))
             [("p", ArgTuple [PInt 2; PInt 3]); ("q", ArgTuple [])]
     = Ok (Flat (FrozenSet [PTuple [PStr "p"; PInt 2]; PTuple [PStr "q"; PTuple []]]))
  /\ exists c,
      Flat (FrozenSet [PTuple [PStr "p"; PInt 2]; PTuple [PStr "q"; PTuple []]]) = Flat c
      /\ forall y, In y (elements c) <->
                   exists pred args,
                     In (pred, args) [("p", ArgTuple [PInt 2; PInt 3]); ("q", ArgTuple [])]
                     /\ y = PTuple [PStr pred;
                                    match args with
                                    | ArgTuple (x :: _) => x
                                    | ArgTuple [] => PTuple []
                                    | ArgStr (String ch _) => PStr (String ch EmptyString)
                                    | ArgStr EmptyString => PTuple []
                                    end].
Proof.
  split; [reflexivity|]. split; [reflexivity|]. split; [reflexivity|].
  refine (proj1 (first_arg_only_keeps_first_argument
                   no_atom_order (first_arg_only (__init__ [] ""))
                   [("p", ArgTuple [PInt 2; PInt 3]); ("q", ArgTuple [])]
                   _ eq_refl eq_refl eq_refl) eq_refl eq_refl).
Defined.

Lemma assertion_never_fails_witness :
  _careful_parsing (__init__ [] "") = false
  /\ _parse_answer no_careful_parser (__init__ [] "") "p(a,1) q z(" <> Raise AssertionError.
Proof.
  split; [reflexivity|].
  exact (proj2 (proj2 (assertion_never_fails no_careful_parser (__init__ [] "")
                                             "p(a,1) q z(" eq_refl))).
Defined.

Lemma fast_mode_raises_only_ValueError_witness :
  _careful_parsing (__init__ [] "") = false
  /\ _parse_answer no_careful_parser (__init__ [] "") superscript_answer_set
     = Raise ValueError
  /\ ValueError = ValueError.
Proof.
  split; [reflexivity|]. split; [reflexivity|].
  exact (fast_mode_raises_only_ValueError no_careful_parser (__init__ [] "")
           superscript_answer_set ValueError eq_refl eq_refl).
Defined.

Lemma convert_arg_decimal_witness :
  convert_arg (__init__ [] "") "42" = Ok (PInt 42)
  /\ convert_arg (__init__ [] "") "-42" = Ok (PInt (-42)).
Proof.
  apply (convert_arg_decimal (__init__ [] "") "42");
    [reflexivity | discriminate | simpl; lia | reflexivity].
Defined.

Section FailingInput.
Variable parse_terms : bool -> bool -> bool -> string -> result (list atom).

(** C5, where the code fails the claim. The argument made of the one
    character U+00B2 (superscript two) passes the test of [isnumeric], and
    its conversion with [int] raises ValueError; so does the parsing of the
    answer set [p("a,N,b")] that holds it between two commas. *)
Theorem numeric_argument_conversion_raises (answers : list string) (command : string) :
  Str.isnumeric (String "178" EmptyString) = true
  /\ convert_arg (__init__ answers command) (String "178" EmptyString) = Raise ValueError
  /\ _parse_answer parse_terms (__init__ answers command) superscript_answer_set
     = Raise ValueError.
Proof. split; [|split]; reflexivity. Qed.
End FailingInput.

(** * Further properties *)

(** ** Options *)

Lemma activate_commute (self : Answers) (o1 o2 : option_name) :
  conflicting o1 o2 = false ->
  activate (activate self o1) o2 = activate (activate self o2) o1.
Proof. destruct o1, o2; intros H; try discriminate H; reflexivity. Qed.

Lemma conflicting_sym (o1 o2 : option_name) : conflicting o1 o2 = conflicting o2 o1.
Proof. destruct o1, o2; reflexivity. Qed.

(** X4. Options activated in any order give the same configuration, as
    long as [atoms_as_string] and [parse_args] are not both among them. *)
Theorem activation_order_is_irrelevant (self : Answers) (os os' : list option_name) :
  Permutation os os' ->
  (forall o1 o2, In o1 os -> In o2 os -> conflicting o1 o2 = false) ->
  activate_all self os = activate_all self os'.
Proof.
  unfold activate_all. intros P. revert self.
  induction P as [| o l l' P IH | o1 o2 l | l l' l'' P1 IH1 P2 IH2]; intros self H.
  - reflexivity.
  - simpl. apply IH. intros; apply H; simpl; auto.
  - simpl. rewrite (activate_commute self o2 o1); [reflexivity|].
    apply H; simpl; auto.
  - rewrite IH1 by exact H. apply IH2. intros a b Ha Hb.
    apply H; eapply Permutation_in; try eassumption; now symmetry.
Qed.

(** X5. Activating options never touches the iterator over the answers nor
    the command, and activating an option twice is activating it once. *)
Theorem activation_frame (self : Answers) (os : list option_name) (o : option_name) :
  _answers (activate_all self os) = _answers self
  /\ command (activate_all self os) = command self
  /\ activate (activate self o) o = activate self o.
Proof.
  split; [|split].
  - unfold activate_all. revert self. induction os as [|o' os IH]; intros self;
      [reflexivity|]. simpl. rewrite IH. now destruct o'.
  - unfold activate_all, command. revert self. induction os as [|o' os IH]; intros self;
      [reflexivity|]. simpl. rewrite IH. now destruct o'.
  - now destruct o.
Qed.

(** X6. What a chain of activations leaves in each attribute but the two
    collapse flags: a flag is on when it was on or when one of the options
    that set it is in the chain, and integer parsing is on when it was on
    and [int_not_parsed] is not in the chain. No later activation switches
    any of them back. *)
Theorem activation_accumulates (self : Answers) (os : list option_name) :
  let self' := activate_all self os in
  _first_arg_only self' = _first_arg_only self || mentions Ofirst_arg_only os
  /\ _group_atoms self' = _group_atoms self || mentions Oby_predicate os
  /\ _as_pyasp self' = _as_pyasp self || mentions Oas_pyasp os
  /\ _sorted self' = _sorted self || mentions Osorted os
  /\ _careful_parsing self'
     = _careful_parsing self || mentions Ocareful_parsing os || mentions Oparse_args os
  /\ _ignore_args self' = _ignore_args self || mentions Ono_arg os
  /\ _parse_int self' = _parse_int self && negb (mentions Oint_not_parsed os).
Proof.
  unfold activate_all. revert self. induction os as [|o os IH]; intros self.
  - cbn. rewrite !orb_false_r, andb_true_r. tauto.
  - specialize (IH (activate self o)).
    destruct IH as (I1 & I2 & I3 & I4 & I5 & I6 & I7).
    cbn [fold_left]. rewrite I1, I2, I3, I4, I5, I6, I7. unfold mentions.
    cbn [existsb]. clear.
    destruct o; cbn;
      destruct (_first_arg_only self), (_group_atoms self), (_as_pyasp self),
        (_sorted self), (_careful_parsing self), (_ignore_args self), (_parse_int self);
      cbn; rewrite ?orb_true_r, ?andb_false_r; tauto.
Qed.

Lemma activation_order_is_irrelevant_witness :
  activate_all (__init__ ["a"] "") [Osorted; Ono_arg; Oby_predicate]
  = activate_all (__init__ ["a"] "") [Oby_predicate; Osorted; Ono_arg].
Proof.
  apply activation_order_is_irrelevant.
  - apply Permutation_sym, (Permutation_cons_app [Osorted; Ono_arg] []). reflexivity.
  - intros o1 o2 [<- | [<- | [<- | []]]] [<- | [<- | [<- | []]]]; reflexivity.
Defined.

Lemma collapse_kept (self : Answers) (os : list option_name) :
  mentions Oatoms_as_string os = false ->
  mentions Oparse_args os = false ->
  _collapse_atoms (activate_all self os) = _collapse_atoms self
  /\ _collapse_args (activate_all self os) = _collapse_args self.
Proof.
  unfold activate_all, mentions. revert self.
  induction os as [|o os IH]; intros self H1 H2; [split; reflexivity|].
  cbn [existsb] in H1, H2. apply orb_false_iff in H1, H2.
  destruct H1 as [E1 H1]. destruct H2 as [E2 H2].
  cbn [fold_left]. destruct (IH (activate self o) H1 H2) as [-> ->].
  destruct o; try discriminate; split; reflexivity.
Qed.

Lemma activate_all_app (self : Answers) (os os' : list option_name) :
  activate_all self (os ++ os') = activate_all (activate_all self os) os'.
Proof. unfold activate_all. apply fold_left_app. Qed.

(** X7. Of [atoms_as_string] and [parse_args], the one activated last
    decides the two collapse flags: off after [parse_args], on after
    [atoms_as_string], whatever else is activated before or after. *)
Theorem collapse_last_wins (self : Answers) (before after : list option_name) :
  mentions Oatoms_as_string after = false ->
  mentions Oparse_args after = false ->
  (let self' := activate_all self (before ++ Oparse_args :: after) in
   _collapse_atoms self' = false /\ _collapse_args self' = false)
  /\ (let self' := activate_all self (before ++ Oatoms_as_string :: after) in
      _collapse_atoms self' = true /\ _collapse_args self' = true).
Proof.
  intros H1 H2. cbv zeta. rewrite !activate_all_app.
  split.
  - change (activate_all (activate_all self before) (Oparse_args :: after))
      with (activate_all (activate (activate_all self before) Oparse_args) after).
    destruct (collapse_kept (activate (activate_all self before) Oparse_args) after H1 H2)
      as [-> ->]. split; reflexivity.
  - change (activate_all (activate_all self before) (Oatoms_as_string :: after))
      with (activate_all (activate (activate_all self before) Oatoms_as_string) after).
    destruct (collapse_kept (activate (activate_all self before) Oatoms_as_string)
                            after H1 H2) as [-> ->]. split; reflexivity.
Qed.

Lemma collapse_last_wins_witness :
  _collapse_atoms
    (activate_all (__init__ [] "") ([Oparse_args] ++ Oatoms_as_string :: [Osorted]))
  = true
  /\ _collapse_args
       (activate_all (__init__ [] "") ([Oparse_args] ++ Oatoms_as_string :: [Osorted]))
     = true.
Proof.
  exact (proj2 (collapse_last_wins (__init__ [] "") [Oparse_args] [Osorted]
                                   eq_refl eq_refl)).
Defined.

(** ** Iteration as a traversal of the source *)

Lemma nth_error_skipn {A : Type} (l : list A) (n : nat) :
  nth_error l n = hd_error (skipn n l).
Proof.
  revert n. induction l as [|y l IH]; intros [|n]; simpl; try reflexivity. apply IH.
Qed.

Lemma next_remaining (it : Py.list_iterator) :
  Py.next it
  = match skipn (Py.it_index it) (Py.it_seq it) with
    | [] => (None, it)
    | x :: _ => (Some x, Py.ListIterator (Py.it_seq it) (S (Py.it_index it)))
    end.
Proof.
  unfold Py.next. rewrite nth_error_skipn. now destruct (skipn _ _).
Qed.

Lemma skipn_S_tl {A : Type} (l : list A) (n : nat) : skipn (S n) l = tl (skipn n l).
Proof.
  revert n. induction l as [|y l IH]; intros [|n]; try reflexivity.
  exact (IH n).
Qed.

Section IterationSpec.

Variable parse_terms : bool -> bool -> bool -> string -> result (list atom).
Variable atom_lt : pyval -> pyval -> result bool.

Lemma bind_ext {A B : Type} (r : result A) (f g : A -> result B) :
  (forall a, f a = g a) -> bind r f = bind r g.
Proof. intros H. destruct r; simpl; [apply H | reflexivity]. Qed.

Lemma group_items_with_answers (self : Answers) (it : Py.list_iterator)
      (items : list pyval) : forall mapping,
  group_items (with_answers self it) items mapping = group_items self items mapping.
Proof.
  induction items as [|item items IH]; intros mapping; [reflexivity|].
  cbn [group_items]. apply bind_ext. intros [pred args]. apply IH.
Qed.

Lemma format_with_answers (self : Answers) (it : Py.list_iterator)
      (answer_set : list atom) :
  _format atom_lt (with_answers self it) answer_set = _format atom_lt self answer_set.
Proof.
  unfold _format.
  change (_ignore_args (with_answers self it)) with (_ignore_args self).
  destruct (_ignore_args self); [reflexivity|].
  change (_first_arg_only (with_answers self it)) with (_first_arg_only self).
  change (_group_atoms (with_answers self it)) with (_group_atoms self).
  change (_as_pyasp (with_answers self it)) with (_as_pyasp self).
  change (builder atom_lt (with_answers self it)) with (builder atom_lt self).
  apply bind_ext. intros c.
  destruct (_group_atoms self); [|reflexivity].
  now rewrite group_items_with_answers.
Qed.

Lemma format_raw_with_answers (self : Answers) (it : Py.list_iterator) (raw : string) :
  format_raw parse_terms atom_lt (with_answers self it) raw
  = format_raw parse_terms atom_lt self raw.
Proof.
  unfold format_raw.
  change (_parse_answer parse_terms (with_answers self it) raw)
    with (_parse_answer parse_terms self raw).
  apply bind_ext. intros atoms. apply format_with_answers.
Qed.

Lemma format_all_with_answers (self : Answers) (it : Py.list_iterator) (raws : list string) :
  format_all parse_terms atom_lt (with_answers self it) raws
  = format_all parse_terms atom_lt self raws.
Proof.
  induction raws as [|raw raws IH]; simpl; [reflexivity|].
  rewrite format_raw_with_answers, IH. reflexivity.
Qed.

Lemma resume_remaining (self : Answers) :
  resume parse_terms atom_lt self
  = match remaining self with
    | [] => (None, self)
    | raw :: _ =>
        (Some (format_raw parse_terms atom_lt self raw),
         with_answers self (Py.ListIterator (Py.it_seq (_answers self))
                                            (S (Py.it_index (_answers self)))))
    end.
Proof.
  unfold resume, remaining. rewrite next_remaining.
  destruct (skipn _ _) as [|raw rest]; [now rewrite with_answers_same|].
  fold (format_raw parse_terms atom_lt
          (with_answers self (Py.ListIterator (Py.it_seq (_answers self))
                                              (S (Py.it_index (_answers self))))) raw).
  now rewrite format_raw_with_answers.
Qed.

Lemma remaining_advanced (self : Answers) (raw : string) (rest : list string) :
  remaining self = raw :: rest ->
  remaining (with_answers self (Py.ListIterator (Py.it_seq (_answers self))
                                                (S (Py.it_index (_answers self)))))
  = rest.
Proof.
  unfold remaining. cbn [with_answers _answers Py.it_seq Py.it_index].
  rewrite skipn_S_tl. now intros ->.
Qed.

Lemma iterate_fuel_spec (fuel : nat) : forall self,
  List.length (remaining self) <= fuel ->
  exists self',
    iterate_fuel parse_terms atom_lt fuel self
    = Some (fst (fst (format_all parse_terms atom_lt self (remaining self))),
            snd (fst (format_all parse_terms atom_lt self (remaining self))), self')
    /\ remaining self' = snd (format_all parse_terms atom_lt self (remaining self))
    /\ same_options self self'.
Proof.
  induction fuel as [|fuel IH]; intros self Hfuel.
  - destruct (remaining self) as [|raw rest] eqn:E; [|simpl in Hfuel; lia].
    exists self. simpl. rewrite resume_remaining, E. simpl.
    split; [reflexivity | split; [first [exact E | reflexivity] | apply with_answers_same]].
  - cbn [iterate_fuel]. rewrite resume_remaining.
    destruct (remaining self) as [|raw rest] eqn:E.
    + exists self. simpl.
      split; [reflexivity | split; [first [exact E | reflexivity] | apply with_answers_same]].
    + pose proof (remaining_advanced self raw rest E) as Hadv.
      set (self1 := with_answers self _) in *.
      cbn [format_all]. destruct (format_raw parse_terms atom_lt self raw) as [v|e].
      * destruct (IH self1) as (self' & Hit & Hrem & Hsame).
        { rewrite Hadv. simpl in Hfuel. lia. }
        rewrite Hadv in Hit, Hrem. unfold self1 in Hit, Hrem.
        rewrite format_all_with_answers in Hit, Hrem. fold self1 in Hit.
        rewrite Hit.
        destruct (format_all parse_terms atom_lt self rest) as [[vs e] unread].
        exists self'. split; [reflexivity | split; [exact Hrem|]].
        unfold same_options in *. unfold self1 in Hsame. clear - Hsame.
        destruct self as [i c f g p s cp ca cg pi ig],
                 self' as [i' c' f' g' p' s' cp' ca' cg' pi' ig'].
        unfold with_answers in *. simpl in *.
        injection Hsame as -> -> -> -> -> -> -> -> -> ->. reflexivity.
      * exists self1. split; [reflexivity | split; [exact Hadv|]].
        unfold same_options, self1. now destruct self.
Qed.

End IterationSpec.

Section IterationTheorems.

Variable parse_terms : bool -> bool -> bool -> string -> result (list atom).
Variable atom_lt : pyval -> pyval -> result bool.

Lemma iterate_spec (self : Answers) :
  exists self',
    iterate parse_terms atom_lt self
    = Some (fst (fst (format_all parse_terms atom_lt self (remaining self))),
            snd (fst (format_all parse_terms atom_lt self (remaining self))), self')
    /\ remaining self' = snd (format_all parse_terms atom_lt self (remaining self))
    /\ same_options self self'.
Proof.
  unfold iterate. apply iterate_fuel_spec. unfold remaining.
  rewrite length_skipn. lia.
Qed.

Lemma format_all_exhausted (self : Answers) (raws : list string) :
  forall vs unread,
    format_all parse_terms atom_lt self raws = (vs, Exhausted, unread) ->
    Forall2 (fun raw v => format_raw parse_terms atom_lt self raw = Ok v) raws vs
    /\ unread = [].
Proof.
  induction raws as [|raw raws IH]; intros vs unread H; simpl in H.
  - injection H as <- <-. split; [constructor | reflexivity].
  - destruct (format_raw parse_terms atom_lt self raw) as [v|e] eqn:E; [|discriminate].
    destruct (format_all parse_terms atom_lt self raws) as [[vs' e'] unread'].
    injection H as <- -> <-. destruct (IH _ _ eq_refl) as [H1 H2].
    split; [now constructor | exact H2].
Qed.

Lemma format_all_raised (self : Answers) (raws : list string) :
  forall vs e unread,
    format_all parse_terms atom_lt self raws = (vs, Raised e, unread) ->
    exists before raw,
      raws = before ++ raw :: unread
      /\ Forall2 (fun raw v => format_raw parse_terms atom_lt self raw = Ok v) before vs
      /\ format_raw parse_terms atom_lt self raw = Raise e.
Proof.
  induction raws as [|raw raws IH]; intros vs e unread H; simpl in H; [discriminate|].
  destruct (format_raw parse_terms atom_lt self raw) as [v|e0] eqn:E.
  - destruct (format_all parse_terms atom_lt self raws) as [[vs' e'] unread'].
    injection H as <- -> <-. destruct (IH _ _ _ eq_refl) as (before & raw' & -> & H1 & H2).
    exists (raw :: before), raw'. split; [reflexivity|]. split; [now constructor | exact H2].
  - injection H as <- <- <-. exists [], raw. split; [reflexivity|]. split; [constructor | exact E].
Qed.

(** X8. A complete iteration is the traversal of the raw answer sets the
    iterator has still to give: each is parsed and formatted in turn, up to
    the end or to the first that raises; the iterator is left on what
    follows, and the options are untouched. *)
Theorem iterate_follows_source (self : Answers) :
  exists self',
    iterate parse_terms atom_lt self
    = Some (fst (fst (format_all parse_terms atom_lt self (remaining self))),
            snd (fst (format_all parse_terms atom_lt self (remaining self))), self')
    /\ remaining self' = snd (format_all parse_terms atom_lt self (remaining self))
    /\ same_options self self'.
Proof. apply iterate_spec. Qed.

(** X9. An iteration that reaches the end has yielded one value for each
    raw answer set, in the order of the source, and has emptied the
    iterator. *)
Theorem iterate_one_value_per_answer_set
        (self self' : Answers) (vs : list formatted) :
  iterate parse_terms atom_lt self = Some (vs, Exhausted, self') ->
  Forall2 (fun raw v => format_raw parse_terms atom_lt self raw = Ok v)
          (remaining self) vs
  /\ List.length vs = List.length (remaining self)
  /\ remaining self' = [].
Proof.
  intros H. destruct (iterate_spec self) as (self1 & H1 & Hrem & _).
  rewrite H in H1. injection H1 as Hvs He <-.
  destruct (format_all parse_terms atom_lt self (remaining self)) as [[vs0 e0] unread] eqn:F.
  simpl in *. subst vs0 e0. apply format_all_exhausted in F. destruct F as [F ->].
  split; [exact F|]. split; [symmetry; eapply Forall2_length; eauto | exact Hrem].
Qed.

(** X10. An iteration ended by an exception has yielded the values of the
    answer sets before the one that raised, has consumed that one, and has
    left the following ones in the iterator: a later iteration goes on
    after the answer set that failed. *)
Theorem iterate_stops_at_first_failure
        (self self' : Answers) (vs : list formatted) (e : exn) :
  iterate parse_terms atom_lt self = Some (vs, Raised e, self') ->
  exists before raw,
    remaining self = before ++ raw :: remaining self'
    /\ Forall2 (fun raw v => format_raw parse_terms atom_lt self raw = Ok v) before vs
    /\ format_raw parse_terms atom_lt self raw = Raise e.
Proof.
  intros H. destruct (iterate_spec self) as (self1 & H1 & Hrem & _).
  rewrite H in H1. injection H1 as Hvs He <-.
  destruct (format_all parse_terms atom_lt self (remaining self)) as [[vs0 e0] unread] eqn:F.
  simpl in *. subst vs0 e0 unread. now apply format_all_raised in F.
Qed.

(** X11. [__next__] takes the first of the raw answer sets left and
    consumes it: it returns nothing once the source is exhausted, and an
    iteration started after it yields the values that follow the one it
    returned. *)
Theorem next_consumes_one_answer_set (self : Answers) :
  match remaining self with
  | [] => __next__ parse_terms atom_lt self = (None, self)
  | raw :: rest =>
      exists self1,
        __next__ parse_terms atom_lt self
        = (Some (format_raw parse_terms atom_lt self raw), self1)
        /\ remaining self1 = rest
        /\ same_options self self1
        /\ forall v vs e self2,
            format_raw parse_terms atom_lt self raw = Ok v ->
            iterate parse_terms atom_lt self1 = Some (vs, e, self2) ->
            iterate parse_terms atom_lt self = Some (v :: vs, e, self2)
  end.
Proof.
  unfold __next__. rewrite resume_remaining.
  destruct (remaining self) as [|raw rest] eqn:E; [reflexivity|].
  pose proof (remaining_advanced self raw rest E) as Hadv.
  set (self1 := with_answers self _) in *.
  exists self1. split; [reflexivity|]. split; [exact Hadv|]. split.
  - unfold same_options, self1. now destruct self.
  - intros v vs e self2 Hv Hit.
    assert (L : forall s, List.length (Py.it_seq (_answers s)) - Py.it_index (_answers s)
                          = List.length (remaining s))
      by (intros s; unfold remaining; now rewrite length_skipn).
    unfold iterate in *. rewrite L in *. rewrite E, Hadv in *. cbn [List.length iterate_fuel].
    rewrite resume_remaining, E. fold self1. rewrite Hv, Hit. reflexivity.
Qed.

End IterationTheorems.

Lemma iterate_one_value_per_answer_set_witness :
  List.length [Flat (FrozenSet [PStr "a"; PStr "b"]); Flat (FrozenSet [PStr "c"])]
  = List.length (remaining (no_arg (__init__ ["a(1) b"; "c"] ""))).
Proof.
  refine (proj1 (proj2 (iterate_one_value_per_answer_set
                          no_careful_parser no_atom_order
                          (no_arg (__init__ ["a(1) b"; "c"] "")) _ _ _))).
  reflexivity.
Defined.

Lemma iterate_stops_at_first_failure_witness :
  exists before raw,
    remaining (sorted (__init__ ["a"; "p(1) p(a)"; "b"] ""))
    = before ++ raw :: remaining (with_answers (sorted (__init__ ["a"; "p(1) p(a)"; "b"] ""))
                                               (Py.ListIterator ["a"; "p(1) p(a)"; "b"] 2))
    /\ Forall2 (fun raw v => format_raw no_careful_parser no_atom_order
                               (sorted (__init__ ["a"; "p(1) p(a)"; "b"] "")) raw = Ok v)
               before [Flat (Tuple [PTuple [PStr "a"; PTuple []]])]
    /\ format_raw no_careful_parser no_atom_order
                  (sorted (__init__ ["a"; "p(1) p(a)"; "b"] "")) raw = Raise TypeError.
Proof.
  apply (iterate_stops_at_first_failure no_careful_parser no_atom_order). reflexivity.
Defined.

(** ** The shape of the matches of [REG_ANSWER_SET] *)

Lemma in_set_lower (c : ascii) : Re.in_set false [("a", "z")%char] c = is_lower c.
Proof. unfold Re.in_set, is_lower. cbn. now rewrite orb_false_r. Qed.

Lemma in_set_word (c : ascii) :
  Re.in_set false [("a", "z"); ("A", "Z"); ("0", "9"); ("_", "_")]%char c = is_word c.
Proof.
  unfold Re.in_set, is_word. cbn. rewrite orb_false_r, !orb_assoc. reflexivity.
Qed.

Lemma in_set_not_paren (c : ascii) :
  Re.in_set true [(")", ")")%char] c = negb (Ascii.eqb c ")").
Proof. destruct c as [[] [] [] [] [] [] [] []]; reflexivity. Qed.

Lemma all_chars_app (p : ascii -> bool) (a b : string) :
  Str.all_chars p (a ++ b) = Str.all_chars p a && Str.all_chars p b.
Proof.
  induction a as [|c a IH]; simpl; [reflexivity|]. now rewrite IH, andb_assoc.
Qed.

Lemma matches_star_set_chars neg rs w c :
  Re.matches (Re.Star (Re.Set_ neg rs)) w c ->
  Str.all_chars (Re.in_set neg rs) w = true.
Proof.
  intros H. remember (Re.Star (Re.Set_ neg rs)) as r eqn:E.
  induction H; try discriminate; [reflexivity|].
  injection E as ->. apply matches_set_inv in H. destruct H as (ch & -> & Hch & _).
  simpl. rewrite Hch. now apply IHmatches2.
Qed.

Lemma all_chars_ext (p q : ascii -> bool) (s : string) :
  (forall c, p c = q c) -> Str.all_chars p s = Str.all_chars q s.
Proof. intros H. induction s as [|c s IH]; simpl; [reflexivity | now rewrite H, IH]. Qed.

(** What [REG_ANSWER_SET] matches: an identifier, alone or followed by a
    parenthesised text that is not empty and holds no closing
    parenthesis. *)
Lemma REG_ANSWER_SET_shape w c :
  Re.matches REG_ANSWER_SET w c ->
  exists pred,
    is_identifier pred = true
    /\ ((w = pred /\ c = [(1, pred)])
        \/ exists inner,
            inner <> EmptyString /\ no_char ")" inner = true
            /\ w = (pred ++ "(" ++ inner ++ ")")%string
            /\ c = [(2, ("(" ++ inner ++ ")")%string); (1, pred)]).
Proof.
  unfold REG_ANSWER_SET. intros H.
  apply matches_seq_inv in H. destruct H as (w1 & w2 & c1 & c2 & -> & -> & H1 & H2).
  apply matches_group_inv in H1. destruct H1 as (c1' & -> & H1).
  apply matches_seq_inv in H1. destruct H1 as (wa & wb & ca & cb & -> & -> & Ha & Hb).
  apply matches_set_inv in Ha. destruct Ha as (ch & -> & Hch & ->).
  pose proof (matches_star_set_chars _ _ _ _ Hb) as Hwb.
  apply matches_star_set_caps in Hb. subst cb.
  exists (String ch wb). split.
  { cbn [is_identifier]. rewrite <- in_set_lower, Hch. cbn [andb].
    erewrite all_chars_ext; [exact Hwb|]. intros x. symmetry. apply in_set_word. }
  apply matches_opt_inv in H2. destruct H2 as [[-> ->] | H2].
  - left. split; [simpl; now rewrite app_nil_r_str | reflexivity].
  - right.
    apply matches_group_inv in H2. destruct H2 as (c2' & -> & H2).
    apply matches_seq_inv in H2. destruct H2 as (wc & wd & cc & cd & -> & -> & Hc & Hd).
    apply matches_lit_inv in Hc. destruct Hc as [-> ->].
    apply matches_seq_inv in Hd. destruct Hd as (we & wf & ce & cf & -> & -> & He & Hf).
    apply matches_lit_inv in Hf. destruct Hf as [-> ->].
    apply matches_plus_inv in He. destruct He as (wg & wh & cg & ch' & -> & -> & Hg & Hh).
    apply matches_set_inv in Hg. destruct Hg as (x & -> & Hx & ->).
    pose proof (matches_star_set_chars _ _ _ _ Hh) as Hwh.
    apply matches_star_set_caps in Hh. subst.
    exists (String x wh). split; [discriminate|]. split; [|split; reflexivity].
    unfold no_char. cbn [Str.all_chars]. rewrite <- in_set_not_paren, Hx. cbn [andb].
    erewrite all_chars_ext; [exact Hwh|]. intros y. symmetry. apply in_set_not_paren.
Qed.

Lemma slice_parenthesised (inner : string) :
  Str.slice_1_m1 ("(" ++ inner ++ ")") = inner.
Proof.
  unfold Str.slice_1_m1. cbn [append String.length].
  rewrite str_length_app. cbn [String.length substring].
  replace (S (String.length inner + 1) - 2) with (String.length inner) by lia.
  apply substring_0_app.
Qed.

Lemma finditer_shape (answer_set : string) (m : Re.match_obj) :
  In m (Re.finditer REG_ANSWER_SET answer_set) ->
  exists pred,
    is_identifier pred = true
    /\ (Re.groups m = [Some pred; None]
        \/ exists inner,
            inner <> EmptyString /\ no_char ")" inner = true
            /\ Re.groups m = [Some pred; Some ("(" ++ inner ++ ")")%string]).
Proof.
  intros H. apply finditer_from_sound in H. destruct H as (w & c & M & ->).
  apply REG_ANSWER_SET_shape in M.
  destruct M as (pred & Hid & [[-> ->] | (inner & Hne & Hno & -> & ->)]);
    exists pred; (split; [exact Hid|]); [left; reflexivity | right].
  exists inner. repeat split; assumption.
Qed.

Lemma split_not_nil (sep : ascii) (s : string) : Str.split sep s <> [].
Proof.
  induction s as [|c s IH]; simpl; [discriminate|].
  destruct (Ascii.eqb c sep); [discriminate|]. now destruct (Str.split sep s).
Qed.

Lemma mapM_length {A B : Type} (f : A -> result B) (l : list A) (ys : list B) :
  mapM f l = Ok ys -> List.length ys = List.length l.
Proof.
  revert ys. induction l as [|x l IH]; simpl; intros ys H.
  - now injection H as <-.
  - apply bind_ok in H. destruct H as (y & _ & H).
    apply bind_ok in H. destruct H as (ys' & H' & [= <-]). simpl. now rewrite (IH ys').
Qed.

(** The atom read from a match with a parenthesised text. *)
Lemma atom_of_match_args (self : Answers) (m : Re.match_obj) (pred inner : string) :
  inner <> EmptyString ->
  Re.groups m = [Some pred; Some ("(" ++ inner ++ ")")%string] ->
  atom_of_match self m
  = if negb (_collapse_atoms self) then
      items <- mapM (convert_arg self) (Str.split "," inner) ;;
      Ok (pred, or_unit (ArgTuple items))
    else Ok (pred, ArgStr inner).
Proof.
  intros Hne Hg. unfold atom_of_match. rewrite Hg. unfold asserted.
  destruct (asserted_parenthesised inner) as [-> ->]. cbn [andb].
  cbn [append]. change (String "(" (inner ++ ")")) with ("(" ++ inner ++ ")")%string.
  rewrite slice_parenthesised.
  destruct (negb (_collapse_atoms self)); [reflexivity|].
  unfold or_unit. destruct inner; [congruence | reflexivity].
Qed.

Lemma atom_of_match_no_args (self : Answers) (m : Re.match_obj) (pred : string) :
  Re.groups m = [Some pred; None] ->
  atom_of_match self m = Ok (pred, ArgTuple []).
Proof. intros Hg. unfold atom_of_match. now rewrite Hg. Qed.

Section FastAtoms.

Variable parse_terms : bool -> bool -> bool -> string -> result (list atom).

(** X12. Every atom the fast mode yields has an identifier as predicate;
    its arguments are the empty tuple, or a tuple that is not empty, or,
    when atoms are left unparsed, a string that is not empty and holds no
    closing parenthesis. *)
Theorem fast_mode_atoms_are_well_formed
        (self : Answers) (answer_set : string) (atoms : list atom) :
  _careful_parsing self = false ->
  _parse_answer parse_terms self answer_set = Ok atoms ->
  Forall (fun a =>
            is_identifier (fst a) = true
            /\ (snd a = ArgTuple []
                \/ (_collapse_atoms self = false
                    /\ exists items, snd a = ArgTuple items /\ items <> [])
                \/ (_collapse_atoms self = true
                    /\ exists s, snd a = ArgStr s /\ s <> EmptyString
                                 /\ no_char ")" s = true)))
         atoms.
Proof.
  unfold _parse_answer. intros -> H. apply Forall_forall. intros a Ha.
  apply (mapM_ok_In _ _ _ H) in Ha. destruct Ha as (m & Hm & Ha).
  apply finditer_shape in Hm.
  destruct Hm as (pred & Hid & [Hg | (inner & Hne & Hno & Hg)]).
  - rewrite (atom_of_match_no_args self m pred Hg) in Ha. injection Ha as <-. auto.
  - rewrite (atom_of_match_args self m pred inner Hne Hg) in Ha.
    destruct (_collapse_atoms self); cbn [negb] in Ha.
    + injection Ha as <-. split; [exact Hid|]. right. right.
      split; [reflexivity|]. exists inner. auto.
    + apply bind_ok in Ha. destruct Ha as (items & Hitems & [= <-]).
      split; [exact Hid|]. right. left. split; [reflexivity|].
      assert (items <> []).
      { apply mapM_length in Hitems. pose proof (split_not_nil "," inner).
        destruct items; [|discriminate]. destruct (Str.split "," inner); [congruence|].
        discriminate. }
      exists items. split; [|assumption].
      unfold or_unit. destruct items; [congruence | reflexivity].
Qed.

(** X13. With integer parsing off, or with atoms left unparsed, the fast
    mode raises no exception whatever the input, and no argument it yields
    is an integer. *)
Theorem fast_mode_without_integers_never_raises (self : Answers) (answer_set : string) :
  _careful_parsing self = false ->
  _parse_int self = false \/ _collapse_atoms self = true ->
  exists atoms,
    _parse_answer parse_terms self answer_set = Ok atoms
    /\ Forall (fun a => match snd a with
                        | ArgTuple items => Forall (fun x => exists s, x = PStr s) items
                        | ArgStr _ => True
                        end) atoms.
Proof.
  unfold _parse_answer. intros -> Hcfg.
  assert (T : forall m, In m (Re.finditer REG_ANSWER_SET answer_set) ->
                        exists a, atom_of_match self m = Ok a
                                  /\ match snd a with
                                     | ArgTuple items =>
                                         Forall (fun x => exists s, x = PStr s) items
                                     | ArgStr _ => True
                                     end).
  { intros m Hm. apply finditer_shape in Hm.
    destruct Hm as (pred & Hid & [Hg | (inner & Hne & Hno & Hg)]).
    - rewrite (atom_of_match_no_args self m pred Hg). eexists. split; [reflexivity|].
      constructor.
    - rewrite (atom_of_match_args self m pred inner Hne Hg).
      destruct (_collapse_atoms self) eqn:Ec; cbn [negb].
      + eexists. split; [reflexivity | exact I].
      + destruct Hcfg as [Hp | Hc]; [|discriminate].
        assert (E : mapM (convert_arg self) (Str.split "," inner)
                    = Ok (map PStr (Str.split "," inner))).
        { induction (Str.split "," inner) as [|x l IH]; [reflexivity|].
          simpl. rewrite (convert_arg_kept self x (or_introl Hp)), IH. reflexivity. }
        rewrite E. cbn [bind]. eexists. split; [reflexivity|].
        unfold or_unit. cbn [snd]. destruct (map PStr (Str.split "," inner)) eqn:Em;
          [constructor|]. cbn [args_truthy]. rewrite <- Em.
        apply Forall_forall. intros x Hx. apply in_map_iff in Hx.
        destruct Hx as (s & <- & _). eauto. }
  destruct (mapM_total (atom_of_match self) (Re.finditer REG_ANSWER_SET answer_set))
    as (atoms & Hatoms).
  { intros m Hm. destruct (T m Hm) as (a & Ha & _). eauto. }
  exists atoms. split; [exact Hatoms|]. apply Forall_forall. intros a Ha.
  apply (mapM_ok_In _ _ _ Hatoms) in Ha. destruct Ha as (m & Hm & Ha).
  destruct (T m Hm) as (a' & Ha' & Hok). rewrite Ha in Ha'. injection Ha' as <-. exact Hok.
Qed.

End FastAtoms.

(** ** The matcher on well-formed atoms *)

Section Greedy.

Variable A : Type.

(** A greedy repetition of a set reads all the characters of the set it
    finds, when what follows is accepted by the continuation. *)
Lemma star_set_greedy neg rs (w : string) : forall rest caps (k : Re.cont A) x fuel,
  Str.all_chars (Re.in_set neg rs) w = true ->
  stops (Re.in_set neg rs) rest ->
  String.length w <= fuel ->
  k rest caps = Some x ->
  Re.star A (Re.run A (Re.Set_ neg rs)) fuel (w ++ rest) caps k = Some x.
Proof.
  set (body := Re.run A (Re.Set_ neg rs)).
  assert (Hcons : forall c t caps (k' : Re.cont A),
             body (String c t) caps k'
             = if Re.in_set neg rs c then k' t caps else None) by reflexivity.
  assert (Hnil : forall caps (k' : Re.cont A), body EmptyString caps k' = None)
    by reflexivity.
  clearbody body.
  induction w as [|c w IH]; intros rest caps k x fuel Hall Hstop Hfuel Hk.
  - cbn [append]. destruct fuel as [|fuel]; [exact Hk|]. cbn [Re.star].
    destruct rest as [|c' t]; [now rewrite Hnil|]. cbn in Hstop.
    now rewrite Hcons, Hstop.
  - destruct fuel as [|fuel]; [simpl in Hfuel; lia|].
    cbn [Str.all_chars] in Hall. apply andb_true_iff in Hall. destruct Hall as [Hc Hw].
    cbn [append Re.star]. rewrite Hcons, Hc.
    replace (String.length (w ++ rest) <? String.length (String c (w ++ rest)))%nat
      with true by (symmetry; apply Nat.ltb_lt; simpl; lia).
    rewrite (IH rest caps k x fuel Hw Hstop); [reflexivity | simpl in Hfuel; lia | exact Hk].
Qed.



Lemma run_seq r1 r2 s caps (k : Re.cont A) :
  Re.run A (Re.Seq r1 r2) s caps k
  = Re.run A r1 s caps (fun s1 caps1 => Re.run A r2 s1 caps1 k).
Proof. reflexivity. Qed.

Lemma run_group n r s caps (k : Re.cont A) :
  Re.run A (Re.Group n r) s caps k
  = Re.run A r s caps (fun s1 caps1 => k s1 ((n, Re.consumed s s1) :: caps1)).
Proof. reflexivity. Qed.

Lemma run_opt r s caps (k : Re.cont A) :
  Re.run A (Re.Opt r) s caps k
  = match Re.run A r s caps k with
    | Some x => Some x
    | None => k s caps
    end.
Proof. reflexivity. Qed.

Lemma run_star r s caps (k : Re.cont A) :
  Re.run A (Re.Star r) s caps k = Re.star A (Re.run A r) (String.length s) s caps k.
Proof. reflexivity. Qed.

Lemma run_plus r s caps (k : Re.cont A) :
  Re.run A (Re.Plus r) s caps k
  = Re.run A r s caps
           (fun s1 caps1 => Re.star A (Re.run A r) (String.length s1) s1 caps1 k).
Proof. reflexivity. Qed.

Lemma run_set_cons neg rs c t caps (k : Re.cont A) :
  Re.run A (Re.Set_ neg rs) (String c t) caps k
  = if Re.in_set neg rs c then k t caps else None.
Proof. reflexivity. Qed.

Lemma run_lit_cons c c' t caps (k : Re.cont A) :
  Re.run A (Re.Lit c) (String c' t) caps k
  = if Ascii.eqb c' c then k t caps else None.
Proof. reflexivity. Qed.

Lemma run_lit_nil c caps (k : Re.cont A) :
  Re.run A (Re.Lit c) EmptyString caps k = None.
Proof. reflexivity. Qed.

(** Group 1 of [REG_ANSWER_SET] reads an identifier that no word character
    follows. *)
Lemma run_group1 (pred rest : string) caps (k : Re.cont A) x :
  is_identifier pred = true ->
  stops is_word rest ->
  k rest ((1, pred) :: caps) = Some x ->
  Re.run A (Re.Group 1
              (Re.Seq (Re.Set_ false [("a", "z")%char])
                      (Re.Star (Re.Set_ false
                                  [("a", "z"); ("A", "Z"); ("0", "9"); ("_", "_")]%char))))
         (pred ++ rest) caps k = Some x.
Proof.
  intros Hid Hstop Hk. destruct pred as [|c t]; [discriminate|].
  cbn [is_identifier] in Hid. apply andb_true_iff in Hid. destruct Hid as [Hc Ht].
  rewrite run_group, run_seq. cbn [append]. rewrite run_set_cons, in_set_lower, Hc.
  rewrite run_star. apply star_set_greedy.
  - erewrite all_chars_ext; [exact Ht|]. apply in_set_word.
  - destruct rest as [|c' r]; [exact I|]. cbn [stops] in *. now rewrite in_set_word.
  - rewrite str_length_app. lia.
  - change (String c (t ++ rest)) with (String c t ++ rest)%string.
    now rewrite consumed_app.
Qed.

(** Group 2 reads a parenthesised text that is not empty and holds no
    closing parenthesis. *)
Lemma run_group2 (inner rest : string) caps (k : Re.cont A) x :
  inner <> EmptyString ->
  no_char ")" inner = true ->
  k rest ((2, ("(" ++ inner ++ ")")%string) :: caps) = Some x ->
  Re.run A (Re.Group 2
              (Re.Seq (Re.Lit "(")
                      (Re.Seq (Re.Plus (Re.Set_ true [(")", ")")%char])) (Re.Lit ")"))))
         (("(" ++ inner ++ ")") ++ rest) caps k = Some x.
Proof.
  intros Hne Hno Hk. destruct inner as [|i0 itail]; [congruence|].
  unfold no_char in Hno. cbn [Str.all_chars] in Hno.
  apply andb_true_iff in Hno. destruct Hno as [Hi0 Hitail].
  rewrite run_group, run_seq. cbn [append]. rewrite run_lit_cons. cbn [Ascii.eqb Bool.eqb].
  rewrite run_seq, run_plus, run_set_cons, in_set_not_paren, Hi0.
  rewrite app_assoc_str. apply star_set_greedy.
  - erewrite all_chars_ext; [exact Hitail|]. apply in_set_not_paren.
  - reflexivity.
  - rewrite str_length_app. lia.
  - cbn [append]. rewrite run_lit_cons. cbn [Ascii.eqb Bool.eqb].
    replace (String "(" (String i0 (itail ++ String ")" rest)))
      with (("(" ++ String i0 itail ++ ")") ++ rest)%string
      by (cbn [append]; now rewrite app_assoc_str).
    now rewrite consumed_app.
Qed.

Lemma run_group2_none (rest : string) caps (k : Re.cont A) :
  stops (fun c => Ascii.eqb c "(") rest ->
  Re.run A (Re.Group 2
              (Re.Seq (Re.Lit "(")
                      (Re.Seq (Re.Plus (Re.Set_ true [(")", ")")%char])) (Re.Lit ")"))))
         rest caps k = None.
Proof.
  intros H. rewrite run_group, run_seq. destruct rest as [|c r]; [reflexivity|].
  rewrite run_lit_cons. cbn [stops] in H. now rewrite H.
Qed.

End Greedy.

(** An identifier followed by neither a word character nor an opening
    parenthesis is matched alone. *)
Lemma match_here_no_args (pred rest : string) :
  is_identifier pred = true ->
  stops (fun c => is_word c || Ascii.eqb c "(") rest ->
  Re.match_here REG_ANSWER_SET (pred ++ rest)
  = Some (Re.Match pred [(1, pred)] 2, rest).
Proof.
  intros Hid Hstop.
  assert (Hw : stops is_word rest /\ stops (fun c => Ascii.eqb c "(") rest).
  { destruct rest as [|c t]; [split; exact I|]. cbn [stops] in *.
    now apply orb_false_iff in Hstop. }
  destruct Hw as [Hw Hp].
  unfold Re.match_here, REG_ANSWER_SET. rewrite run_seq.
  apply run_group1; [exact Hid | exact Hw|].
  rewrite run_opt, run_group2_none by exact Hp.
  now rewrite consumed_app.
Qed.

(** An identifier followed by a parenthesised text, not empty and without
    closing parenthesis, is matched with that text. *)
Lemma match_here_args (pred inner rest : string) :
  is_identifier pred = true ->
  inner <> EmptyString ->
  no_char ")" inner = true ->
  Re.match_here REG_ANSWER_SET (pred ++ ("(" ++ inner ++ ")") ++ rest)
  = Some (Re.Match (pred ++ "(" ++ inner ++ ")")
                   [(2, ("(" ++ inner ++ ")")%string); (1, pred)] 2, rest).
Proof.
  intros Hid Hne Hno.
  unfold Re.match_here, REG_ANSWER_SET. rewrite run_seq.
  apply run_group1; [exact Hid | reflexivity|].
  rewrite run_opt.
  rewrite (run_group2 _ inner rest _ _
             (Re.Match (pred ++ "(" ++ inner ++ ")")
                       [(2, ("(" ++ inner ++ ")")%string); (1, pred)] 2, rest) Hne Hno);
    [reflexivity|].
  rewrite <- (app_assoc_str pred). now rewrite consumed_app.
Qed.

(** ** Reading back a rendered answer set *)

Lemma finditer_skip (r : Re.regex) (w rest : string) :
  Re.finditer_from r (String.length w) (w ++ rest) = Re.finditer_from r 0 rest.
Proof. induction w as [|c w IH]; [reflexivity | exact IH]. Qed.

Lemma finditer_cons (r : Re.regex) (w rest rest' : string) (m : Re.match_obj) :
  w <> EmptyString ->
  Re.match_here r (w ++ rest) = Some (m, rest') ->
  Re.m_text m = w ->
  Re.finditer r (w ++ rest) = m :: Re.finditer r rest.
Proof.
  intros Hne Hm Ht. unfold Re.finditer. destruct w as [|c w]; [congruence|].
  cbn [append Re.finditer_from]. change (String c (w ++ rest)) with (String c w ++ rest)%string.
  rewrite Hm, Ht. f_equal.
  replace (String.length (String c w) - 1) with (String.length w)
    by (cbn [String.length]; lia).
  apply finditer_skip.
Qed.

Lemma finditer_space (rest : string) :
  Re.finditer REG_ANSWER_SET (String " " rest) = Re.finditer REG_ANSWER_SET rest.
Proof. reflexivity. Qed.

Lemma split_no_sep (sep : ascii) (x : string) :
  no_char sep x = true -> Str.split sep x = [x].
Proof.
  unfold no_char. induction x as [|c x IH]; [reflexivity|].
  cbn [Str.all_chars Str.split]. rewrite andb_true_iff, negb_true_iff.
  intros [-> Hx]. now rewrite (IH Hx).
Qed.

Lemma split_app (sep : ascii) (x t : string) :
  no_char sep x = true ->
  Str.split sep (x ++ String sep t) = x :: Str.split sep t.
Proof.
  unfold no_char. induction x as [|c x IH].
  - intros _. cbn [append Str.split]. now rewrite Ascii.eqb_refl.
  - cbn [Str.all_chars append Str.split]. rewrite andb_true_iff, negb_true_iff.
    intros [-> Hx]. now rewrite (IH Hx).
Qed.

Lemma split_join (args : list string) :
  args <> [] ->
  forallb (no_char ",") args = true ->
  Str.split "," (join "," args) = args.
Proof.
  induction args as [|x args IH]; [congruence|]. intros _ H.
  cbn [forallb] in H. apply andb_true_iff in H. destruct H as [Hx Hargs].
  destruct args as [|y args]; [now apply split_no_sep|].
  cbn [join]. cbn [append]. rewrite (split_app "," x _ Hx).
  f_equal. apply IH; [discriminate | exact Hargs].
Qed.

Lemma no_char_app (c : ascii) (a b : string) :
  no_char c (a ++ b) = no_char c a && no_char c b.
Proof. apply all_chars_app. Qed.

Lemma join_no_char (c : ascii) (sep : string) (args : list string) :
  no_char c sep = true ->
  forallb (no_char c) args = true ->
  no_char c (join sep args) = true.
Proof.
  intros Hsep. induction args as [|x args IH]; [reflexivity|].
  cbn [forallb]. rewrite andb_true_iff. intros [Hx Hargs].
  destruct args as [|y args]; [exact Hx|].
  cbn [join]. rewrite !no_char_app, Hx, Hsep. now apply IH.
Qed.

Lemma join_not_empty (sep : string) (args : list string) :
  sep <> EmptyString -> args <> [] -> args <> [EmptyString] ->
  join sep args <> EmptyString.
Proof.
  intros Hsep Hne Hone. destruct args as [|x [|y args]]; [congruence | |].
  - cbn. congruence.
  - cbn [join]. destruct x; cbn; [|discriminate]. destruct sep; [congruence | discriminate].
Qed.

Lemma forallb_impl {A : Type} (p q : A -> bool) (l : list A) :
  (forall x, p x = true -> q x = true) -> forallb p l = true -> forallb q l = true.
Proof.
  intros H. induction l as [|x l IH]; [reflexivity|]. cbn [forallb].
  rewrite !andb_true_iff. intros [Hx Hl]. auto.
Qed.

(** The first match in a rendered answer set is its first atom. *)
Lemma finditer_render_cons (pred : string) (args : list string)
      (l : list (string * list string)) :
  plain_atom (pred, args) = true ->
  exists m,
    Re.finditer REG_ANSWER_SET (render_answer_set ((pred, args) :: l))
    = m :: Re.finditer REG_ANSWER_SET (render_answer_set l)
    /\ Re.groups m
       = [Some pred;
          match args with
          | [] => None
          | _ => Some ("(" ++ join "," args ++ ")")%string
          end].
Proof.
  unfold plain_atom. rewrite !andb_true_iff, negb_true_iff.
  intros [[Hid Hargs] Hone].
  assert (Hpred : pred <> EmptyString) by (destruct pred; [discriminate | congruence]).
  set (rest := match l with [] => EmptyString | _ => (" " ++ render_answer_set l)%string end).
  assert (Hrender : render_answer_set ((pred, args) :: l)
                    = (render_atom (pred, args) ++ rest)%string).
  { unfold render_answer_set, rest. destruct l as [|b l]; cbn [map join].
    - symmetry. apply app_nil_r_str.
    - reflexivity. }
  assert (Hrest : Re.finditer REG_ANSWER_SET rest
                  = Re.finditer REG_ANSWER_SET (render_answer_set l)).
  { unfold rest. destruct l; [reflexivity | apply finditer_space]. }
  rewrite Hrender, <- Hrest.
  destruct args as [|a args].
  - exists (Re.Match pred [(1, pred)] 2). split; [|reflexivity].
    cbn [render_atom]. apply (finditer_cons _ _ _ rest); [exact Hpred | | reflexivity].
    apply match_here_no_args; [exact Hid|]. unfold rest. now destruct l.
  - set (inner := join "," (a :: args)).
    exists (Re.Match (pred ++ "(" ++ inner ++ ")")
                     [(2, ("(" ++ inner ++ ")")%string); (1, pred)] 2).
    split; [|reflexivity].
    change (render_atom (pred, a :: args)) with (pred ++ "(" ++ inner ++ ")")%string.
    apply (finditer_cons _ _ _ rest); [destruct pred; [congruence | discriminate] | | reflexivity].
    rewrite app_assoc_str. apply match_here_args; [exact Hid | |].
    + apply join_not_empty; [discriminate | discriminate|].
      intros E. injection E as -> ->. discriminate Hone.
    + apply join_no_char; [reflexivity|].
      apply (forallb_impl _ _ _ (fun x H => proj2 (andb_prop _ _ H)) Hargs).
Qed.

Section ReadBack.

Variable parse_terms : bool -> bool -> bool -> string -> result (list atom).

(** X14. In the fast mode with atoms not collapsed, an answer set written
    as identifiers, each alone or followed by its arguments between
    parentheses and separated by commas, the atoms separated by spaces, is
    read back as these atoms with these arguments, in order, as strings:
    provided no argument holds a comma or a closing parenthesis, and
    integer parsing is off or no argument is numeric. *)
Theorem fast_mode_reads_back_plain_atoms
        (self : Answers) (atoms : list (string * list string)) :
  _careful_parsing self = false ->
  _collapse_atoms self = false ->
  _parse_int self = false
  \/ forallb (fun a =>
                forallb (fun arg =>
                           negb (Str.isnumeric (if Str.startswith "-" arg
                                                then Str.slice_from_1 arg else arg)))
                        (snd a)) atoms = true ->
  forallb plain_atom atoms = true ->
  _parse_answer parse_terms self (render_answer_set atoms)
  = Ok (map (fun a => (fst a, ArgTuple (map PStr (snd a)))) atoms).
Proof.
  unfold _parse_answer. intros -> Hc Hint Hplain.
  induction atoms as [|[pred args] l IH]; [reflexivity|].
  cbn [forallb] in Hplain. apply andb_true_iff in Hplain. destruct Hplain as [Ha Hl].
  assert (Hint' : _parse_int self = false
                  \/ forallb (fun arg =>
                                negb (Str.isnumeric (if Str.startswith "-" arg
                                                     then Str.slice_from_1 arg else arg)))
                             args = true).
  { destruct Hint as [H | H]; [now left | right].
    cbn [forallb snd] in H. now apply andb_true_iff in H. }
  assert (Hint'' : _parse_int self = false
                   \/ forallb (fun a =>
                                 forallb (fun arg =>
                                            negb (Str.isnumeric
                                                    (if Str.startswith "-" arg
                                                     then Str.slice_from_1 arg else arg)))
                                         (snd a)) l = true).
  { destruct Hint as [H | H]; [now left | right].
    cbn [forallb snd] in H. now apply andb_true_iff in H. }
  destruct (finditer_render_cons pred args l Ha) as (m & -> & Hg).
  cbn [mapM map fst snd]. rewrite (IH Hint'' Hl).
  destruct args as [|a args].
  - rewrite (atom_of_match_no_args self m pred Hg). reflexivity.
  - unfold plain_atom in Ha. rewrite !andb_true_iff, negb_true_iff in Ha.
    destruct Ha as [[Hid Hargs] Hone].
    rewrite (atom_of_match_args self m pred (join "," (a :: args))); [| |exact Hg].
    + rewrite Hc. cbn [negb]. rewrite split_join;
        [|discriminate
         |apply (forallb_impl _ _ _ (fun x H => proj1 (andb_prop _ _ H)) Hargs)].
      assert (E : mapM (convert_arg self) (a :: args) = Ok (map PStr (a :: args))).
      { clear - Hint'. induction (a :: args) as [|x xs IHx]; [reflexivity|].
        cbn [mapM map]. rewrite convert_arg_kept, IHx; [reflexivity | |].
        - destruct Hint' as [H | H]; [now left | right].
          cbn [forallb] in H. now apply andb_true_iff in H.
        - destruct Hint' as [H | H]; [now left | right].
          cbn [forallb] in H. apply andb_true_iff in H. destruct H as [H _].
          now apply negb_true_iff in H. }
      rewrite E. reflexivity.
    + apply join_not_empty; [discriminate | discriminate|].
      intros E. injection E as -> ->. discriminate Hone.
Qed.

End ReadBack.

(** ** The formatting of the pairs *)

Lemma set_add_not_nil (x : pyval) (s : list pyval) : set_add x s <> [].
Proof.
  unfold set_add. destruct (mem x s) eqn:E.
  - apply mem_In in E. now destruct s.
  - now destruct s.
Qed.

Lemma group_items_not_empty (self : Answers) (items : list pyval) :
  forall m m',
    (forall k s, dict_get k m = Some s -> s <> []) ->
    group_items self items m = Ok m' ->
    forall k s, dict_get k m' = Some s -> s <> [].
Proof.
  induction items as [|item items IH]; intros m m' Hm H; simpl in H.
  - now injection H as <-.
  - apply bind_ok in H. destruct H as ([pred args] & _ & H).
    eapply IH; [|exact H].
    intros k s. unfold dict_add.
    destruct (dict_get pred m) as [s0|] eqn:E; rewrite dict_get_set;
      (destruct (pyval_eqb pred k); [intros [= <-]; apply set_add_not_nil | apply Hm]).
Qed.

Lemma mapM_keys {V W : Type} (g : V -> result W) (m : dict V) (d : dict W) :
  mapM (fun '(pred, args) => c <- g args ;; Ok (pred, c)) m = Ok d ->
  map fst d = map fst m.
Proof.
  revert d. induction m as [|[k s] m IH]; simpl; intros d H.
  - now injection H as <-.
  - apply bind_ok in H. destruct H as ([k1 c0] & H0 & H).
    apply bind_ok in H0. destruct H0 as (c & Hc & [= <- <-]).
    apply bind_ok in H. destruct H as (d' & Hd' & [= <-]). simpl. now rewrite (IH d').
Qed.

Section FormatRest.

Variable atom_lt : pyval -> pyval -> result bool.
Variable self : Answers.

(** The part of [_format] below the first call of [builder], on the pairs
    [L] handed to that call: what the result holds. *)
Lemma format_rest_spec (L : list pyval) (v : formatted) :
  Forall is_pair L ->
  (answer_set <- builder atom_lt self L ;;
   if _group_atoms self then
     mapping <- group_items self (elements answer_set) [] ;;
     d <- mapM (fun '(pred, args) =>
                  c <- builder atom_lt self args ;; Ok (pred, c)) mapping ;;
     Ok (Grouped d)
   else if _as_pyasp self then
     atoms <- mapM atom_of_item (elements answer_set) ;;
     c <- builder atom_lt self atoms ;; Ok (Flat c)
   else Ok (Flat answer_set)) = Ok v ->
  (_group_atoms self = false -> _as_pyasp self = false ->
   exists c, v = Flat c /\ forall y, In y (elements c) <-> In y L)
  /\ (_group_atoms self = false -> _as_pyasp self = true ->
      exists c, v = Flat c
                /\ forall y, In y (elements c) <->
                             exists k a, In (PTuple [k; a]) L /\ y = Atom k a)
  /\ (_group_atoms self = true ->
      exists d, v = Grouped d
                /\ NoDup (map fst d)
                /\ (forall k y,
                       (exists c, dict_get k d = Some c /\ In y (elements c)) <->
                       exists a, In (PTuple [k; a]) L /\ y = residual self k a)
                /\ (forall k c, dict_get k d = Some c -> elements c <> [])
                /\ (forall k, dict_get k d = None <-> forall a, ~ In (PTuple [k; a]) L)).
Proof.
  intros HL H. apply bind_ok in H. destruct H as (c0 & Hc0 & H).
  apply builder_elements in Hc0. destruct Hc0 as [Hc0 _].
  assert (HP : Forall is_pair (elements c0)).
  { apply (Forall_same_In _ L); [intros x; apply Hc0 | exact HL]. }
  split; [|split].
  - intros Hg Hp. rewrite Hg, Hp in H. injection H as <-. eauto.
  - intros Hg Hp. rewrite Hg, Hp in H.
    apply bind_ok in H. destruct H as (atoms & Hatoms & H).
    apply bind_ok in H. destruct H as (c & Hc & [= <-]).
    exists c. split; [reflexivity|].
    apply builder_elements in Hc. destruct Hc as [Hc _].
    destruct (atom_of_item_total _ HP) as (atoms' & Hatoms' & Hin).
    rewrite Hatoms in Hatoms'. injection Hatoms' as <-.
    intros y. rewrite Hc, Hin.
    split; intros (k & a & Hka & ->); exists k, a; (split; [now apply Hc0 | reflexivity]).
  - intros Hg. rewrite Hg in H.
    apply bind_ok in H. destruct H as (m & Hm & H).
    apply bind_ok in H. destruct H as (d & Hd & [= <-]).
    exists d. split; [reflexivity|].
    destruct (group_items_spec self _ HP [] mapping_ok_nil)
      as (m' & Hm' & [Hkeys _] & Hmem & Hnone).
    rewrite Hm in Hm'. injection Hm' as <-.
    assert (Hne : forall k s, dict_get k m = Some s -> s <> []).
    { apply (group_items_not_empty self (elements c0) [] m); [discriminate | exact Hm]. }
    assert (Hd' : forall k y, (exists c, dict_get k d = Some c /\ In y (elements c))
                              <-> In y (members k m)).
    { intros k y. unfold members.
      destruct (mapM_dict_get _ _ _ Hd k) as [[-> ->] | (s & c & -> & Hb & ->)].
      - split; [intros (c & [=] & _) | intros []].
      - apply builder_elements in Hb. destruct Hb as [Hb _]. split.
        + intros (c' & [= <-] & Hy). now apply Hb.
        + intros Hy. exists c. split; [reflexivity | now apply Hb]. }
    split; [rewrite (mapM_keys _ _ _ Hd); exact Hkeys|]. split; [|split].
    + intros k y. rewrite Hd', Hmem. cbn [members dict_get]. split.
      * intros [[] | (a & Ha & ->)]. exists a. split; [now apply Hc0 | reflexivity].
      * intros (a & Ha & ->). right. exists a. split; [now apply Hc0 | reflexivity].
    + intros k c Hk.
      destruct (mapM_dict_get _ _ _ Hd k) as [[_ E] | (s & c' & Hs & Hb & E)];
        rewrite E in Hk; [discriminate|]. injection Hk as <-.
      apply builder_elements in Hb. destruct Hb as [Hb _].
      apply Hne in Hs. destruct s as [|x s]; [congruence|].
      intros Ec. assert (Hx : In x (elements c')) by (apply Hb; now left).
      rewrite Ec in Hx. contradiction.
    + intros k.
      assert (E : dict_get k d = None <-> dict_get k m = None).
      { destruct (mapM_dict_get _ _ _ Hd k) as [[-> ->] | (s & c & -> & _ & ->)];
          split; congruence. }
      rewrite E, Hnone. split.
      * intros [_ Hno] a Ha. apply (Hno a). now apply Hc0.
      * intros Hno. split; [reflexivity|]. intros a Ha. apply (Hno a). now apply Hc0.
Qed.

End FormatRest.

Section FormatTheorems.

Variable atom_lt : pyval -> pyval -> result bool.

Lemma items_pairs (self : Answers) (answer_set : list atom) :
  Forall is_pair (if _first_arg_only self then map first_arg_item answer_set
                  else map all_args_item answer_set).
Proof.
  destruct (_first_arg_only self);
    [apply is_pair_first_arg_items | apply is_pair_all_args_items].
Qed.

Lemma format_not_ignored (self : Answers) (answer_set : list atom) :
  _ignore_args self = false ->
  _format atom_lt self answer_set
  = (c0 <- builder atom_lt self (if _first_arg_only self
                                 then map first_arg_item answer_set
                                 else map all_args_item answer_set) ;;
     if _group_atoms self then
       mapping <- group_items self (elements c0) [] ;;
       d <- mapM (fun '(pred, args) =>
                    c <- builder atom_lt self args ;; Ok (pred, c)) mapping ;;
       Ok (Grouped d)
     else if _as_pyasp self then
       atoms <- mapM atom_of_item (elements c0) ;;
       c <- builder atom_lt self atoms ;; Ok (Flat c)
     else Ok (Flat c0)).
Proof. unfold _format. intros ->. now destruct (_first_arg_only self). Qed.

(** X15. Without [sorted] and without [as_pyasp], formatting raises no
    exception, whatever the answer set and the other options. *)
Theorem unsorted_format_never_raises (self : Answers) (answer_set : list atom) :
  _sorted self = false ->
  _as_pyasp self = false ->
  exists v, _format atom_lt self answer_set = Ok v.
Proof.
  intros Hs Hp. destruct (_ignore_args self) eqn:Hi.
  - unfold _format. rewrite Hi, Hp, !(builder_unsorted atom_lt self Hs).
    destruct (_group_atoms self); cbn; eauto.
  - rewrite (format_not_ignored self answer_set Hi), (builder_unsorted atom_lt self Hs).
    cbn [bind elements frozenset]. rewrite Hp.
    assert (HP : Forall is_pair
                        (set_of (if _first_arg_only self
                                 then map first_arg_item answer_set
                                 else map all_args_item answer_set))).
    { eapply Forall_same_In; [|apply (items_pairs self answer_set)].
      intros x. apply set_of_In. }
    destruct (_group_atoms self); [|eauto].
    destruct (group_items_spec self _ HP [] mapping_ok_nil) as (m & -> & _).
    cbn [bind].
    destruct (mapM_total (fun '(pred, args) =>
                            c <- builder atom_lt self args ;; Ok (pred, c)) m)
      as (d & ->); [|cbn; eauto].
    intros [k s] _. rewrite (builder_unsorted atom_lt self Hs). cbn. eauto.
Qed.

(** X16. Without [first_arg_only] and [no_arg], an atom whose arguments
    were parsed to a tuple is formatted with the tuple of all its
    arguments, in their order, and an atom whose arguments were left as one
    string with the tuple of the characters of that string: the result
    holds exactly the pairs of a predicate and this tuple (as atoms under
    [as_pyasp], the tuples under their predicate when grouped). *)
Theorem all_arguments_are_kept (self : Answers) (answer_set : list atom) (v : formatted) :
  _ignore_args self = false ->
  _first_arg_only self = false ->
  _format atom_lt self answer_set = Ok v ->
  (* the tuple made of the arguments of an atom *)
  let kept (args : args_t) : pyval :=
    match args with
    | ArgTuple items => PTuple items
    | ArgStr s =>
        PTuple (map (fun ch => PStr (String ch EmptyString)) (list_ascii_of_string s))
    end in
  (_group_atoms self = false -> _as_pyasp self = false ->
   exists c, v = Flat c
             /\ forall y, In y (elements c) <->
                          exists pred args, In (pred, args) answer_set
                                            /\ y = PTuple [PStr pred; kept args])
  /\ (_group_atoms self = false -> _as_pyasp self = true ->
      exists c, v = Flat c
                /\ forall y, In y (elements c) <->
                             exists pred args, In (pred, args) answer_set
                                               /\ y = Atom (PStr pred) (kept args))
  /\ (_group_atoms self = true ->
      exists d, v = Grouped d
                /\ forall k y,
                    (exists c, dict_get k d = Some c /\ In y (elements c)) <->
                    exists pred args, In (pred, args) answer_set /\ k = PStr pred
                                      /\ y = residual self k (kept args)).
Proof.
  intros Hi Hf H kept. rewrite (format_not_ignored self answer_set Hi), Hf in H.
  apply (format_rest_spec atom_lt self _ v (is_pair_all_args_items _)) in H.
  destruct H as (Hplain & Hatom & Hgroup).
  assert (K : forall args, to_tuple args = kept args) by (intros [l | t]; reflexivity).
  assert (Hitems : forall k a, In (PTuple [k; a]) (map all_args_item answer_set) <->
                               exists pred args, In (pred, args) answer_set
                                                 /\ k = PStr pred /\ a = kept args).
  { intros k a. rewrite in_map_iff. split.
    - intros ([pred args] & E & Hin). cbn [all_args_item] in E. rewrite K in E.
      injection E as <- <-. eauto.
    - intros (pred & args & Hin & -> & ->). exists (pred, args).
      split; [cbn [all_args_item]; now rewrite K | exact Hin]. }
  split; [|split].
  - intros Hg Hp. destruct (Hplain Hg Hp) as (c & -> & Hc). exists c.
    split; [reflexivity|]. intros y. rewrite Hc, in_map_iff. split.
    + intros ([pred args] & <- & Hin). exists pred, args.
      split; [exact Hin|]. cbn [all_args_item]. now rewrite K.
    + intros (pred & args & Hin & ->). exists (pred, args).
      split; [cbn [all_args_item]; now rewrite K | exact Hin].
  - intros Hg Hp. destruct (Hatom Hg Hp) as (c & -> & Hc). exists c.
    split; [reflexivity|]. intros y. rewrite Hc. split.
    + intros (k & a & Hka & ->). apply Hitems in Hka.
      destruct Hka as (pred & args & Hpa & -> & ->). eauto.
    + intros (pred & args & Hpa & ->). exists (PStr pred), (kept args).
      split; [|reflexivity]. apply Hitems. eauto.
  - intros Hg. destruct (Hgroup Hg) as (d & -> & _ & Hd & _). exists d.
    split; [reflexivity|]. intros k y. rewrite Hd. split.
    + intros (a & Ha & ->). apply Hitems in Ha.
      destruct Ha as (pred & args & Hpa & -> & ->). eauto.
    + intros (pred & args & Hpa & -> & ->). exists (kept args).
      split; [|reflexivity]. apply Hitems. eauto.
Qed.

(** X17. When atoms are grouped (and arguments not ignored), the keys of the
    result are the predicates of the answer set, each once, and no key is
    mapped to an empty container. *)
Theorem grouped_keys_are_the_predicates
        (self : Answers) (answer_set : list atom) (v : formatted) :
  _ignore_args self = false ->
  _group_atoms self = true ->
  _format atom_lt self answer_set = Ok v ->
  exists d,
    v = Grouped d
    /\ NoDup (map fst d)
    /\ (forall k, (exists c, dict_get k d = Some c) <->
                  exists pred args, In (pred, args) answer_set /\ k = PStr pred)
    /\ (forall k c, dict_get k d = Some c -> elements c <> []).
Proof.
  intros Hi Hg H. rewrite (format_not_ignored self answer_set Hi) in H.
  apply (format_rest_spec atom_lt self _ v (items_pairs self answer_set)) in H.
  destruct H as (_ & _ & Hgroup). destruct (Hgroup Hg) as (d & -> & Hkeys & Hd & Hne & _).
  exists d. split; [reflexivity|]. split; [exact Hkeys|]. split; [|exact Hne].
  assert (Hitems : forall k,
             (exists a, In (PTuple [k; a])
                           (if _first_arg_only self then map first_arg_item answer_set
                            else map all_args_item answer_set))
             <-> exists pred args, In (pred, args) answer_set /\ k = PStr pred).
  { intros k. destruct (_first_arg_only self); split.
    - intros (a & Ha). apply in_map_iff in Ha.
      destruct Ha as ([pred args] & [= <- <-] & Hin). eauto.
    - intros (pred & args & Hin & ->). exists (first_or_unit args).
      apply in_map_iff. exists (pred, args). auto.
    - intros (a & Ha). apply in_map_iff in Ha.
      destruct Ha as ([pred args] & [= <- <-] & Hin). eauto.
    - intros (pred & args & Hin & ->). exists (to_tuple args).
      apply in_map_iff. exists (pred, args). auto. }
  intros k. rewrite <- Hitems. split.
  - intros (c & Hc). pose proof (Hne k c Hc) as Hnil.
    destruct (elements c) as [|y l] eqn:E; [congruence|].
    assert (Hy : exists c', dict_get k d = Some c' /\ In y (elements c')).
    { exists c. split; [exact Hc|]. rewrite E. now left. }
    apply Hd in Hy. destruct Hy as (a & Ha & _). eauto.
  - intros (a & Ha).
    assert (Hy : exists a', In (PTuple [k; a']) (if _first_arg_only self
                                                 then map first_arg_item answer_set
                                                 else map all_args_item answer_set)
                            /\ residual self k a = residual self k a') by eauto.
    apply Hd in Hy. destruct Hy as (c & Hc & _). eauto.
Qed.

(** X18. When atoms are neither grouped nor wrapped, the sorted result is a
    rearrangement of the items, one for each atom of the answer set
    (an atom met twice is there twice), while the set holds each item
    once. *)
Theorem sorted_keeps_every_atom (self : Answers) (answer_set : list atom) (v : formatted) :
  _group_atoms self = false ->
  _as_pyasp self = false ->
  _format atom_lt self answer_set = Ok v ->
  exists c,
    v = Flat c
    /\ match c with
       | Tuple l =>
           _sorted self = true
           /\ Permutation (items_of self answer_set) l
           /\ List.length l = List.length answer_set
       | FrozenSet l =>
           _sorted self = false
           /\ NoDup l
           /\ forall y, In y l <-> In y (items_of self answer_set)
       end.
Proof.
  intros Hg Hp H. unfold _format, items_of in *. rewrite Hg, Hp in H.
  assert (G : forall L, List.length L = List.length answer_set ->
                        forall c, builder atom_lt self L = Ok c ->
                                  match c with
                                  | Tuple l =>
                                      _sorted self = true /\ Permutation L l
                                      /\ List.length l = List.length answer_set
                                  | FrozenSet l =>
                                      _sorted self = false /\ NoDup l
                                      /\ forall y, In y l <-> In y L
                                  end).
  { intros L HL c Hc. apply builder_elements in Hc. destruct Hc as [Hin Hk].
    destruct c as [l | l]; destruct Hk as [Hs Hk]; (split; [exact Hs|]); split; auto.
    rewrite <- HL. symmetry. now apply Permutation_length. }
  destruct (_ignore_args self).
  - apply bind_ok in H. destruct H as (c & Hc & [= <-]). exists c.
    split; [reflexivity|]. apply G; [now rewrite !length_map | exact Hc].
  - apply bind_ok in H. destruct H as (c & Hc & [= <-]). exists c.
    split; [reflexivity|].
    destruct (_first_arg_only self); (apply G; [now rewrite length_map | exact Hc]).
Qed.

End FormatTheorems.

Lemma fast_mode_atoms_are_well_formed_witness :
  _careful_parsing (__init__ [] "") = false
  /\ _parse_answer no_careful_parser (__init__ [] "") "rel(a,1) b"
     = Ok [("rel", ArgTuple [PStr "a"; PInt 1]); ("b", ArgTuple [])]
  /\ Forall (fun a =>
               is_identifier (fst a) = true
               /\ (snd a = ArgTuple []
                   \/ (_collapse_atoms (__init__ [] "") = false
                       /\ exists items, snd a = ArgTuple items /\ items <> [])
                   \/ (_collapse_atoms (__init__ [] "") = true
                       /\ exists s, snd a = ArgStr s /\ s <> EmptyString
                                    /\ no_char ")" s = true)))
            [("rel", ArgTuple [PStr "a"; PInt 1]); ("b", ArgTuple [])].
Proof.
  split; [reflexivity|]. split; [reflexivity|].
  apply (fast_mode_atoms_are_well_formed no_careful_parser (__init__ [] "") "rel(a,1) b");
    reflexivity.
Defined.

Lemma fast_mode_without_integers_never_raises_witness :
  _careful_parsing (int_not_parsed (__init__ [] "")) = false
  /\ _parse_int (int_not_parsed (__init__ [] "")) = false
  /\ exists atoms,
      _parse_answer no_careful_parser (int_not_parsed (__init__ [] ""))
                    superscript_answer_set = Ok atoms
      /\ Forall (fun a => match snd a with
                          | ArgTuple items => Forall (fun x => exists s, x = PStr s) items
                          | ArgStr _ => True
                          end) atoms.
Proof.
  split; [reflexivity|]. split; [reflexivity|].
  apply (fast_mode_without_integers_never_raises
           no_careful_parser (int_not_parsed (__init__ [] "")));
    [reflexivity | left; reflexivity].
Defined.

Lemma fast_mode_reads_back_plain_atoms_witness :
  render_answer_set [("rel", ["a"; "b c"]); ("obj", []); ("p", ["x1"])]
  = "rel(a,b c) obj p(x1)"
  /\ _parse_answer no_careful_parser (__init__ [] "")
                   (render_answer_set [("rel", ["a"; "b c"]); ("obj", []); ("p", ["x1"])])
     = Ok [("rel", ArgTuple [PStr "a"; PStr "b c"]); ("obj", ArgTuple []);
           ("p", ArgTuple [PStr "x1"])].
Proof.
  split; [reflexivity|].
  apply (fast_mode_reads_back_plain_atoms
           no_careful_parser (__init__ [] "")
           [("rel", ["a"; "b c"]); ("obj", []); ("p", ["x1"])]);
    [reflexivity | reflexivity | right; reflexivity | reflexivity].
Defined.

Lemma unsorted_format_never_raises_witness :
  _sorted (by_predicate (first_arg_only (__init__ [] ""))) = false
  /\ _as_pyasp (by_predicate (first_arg_only (__init__ [] ""))) = false
  /\ exists v,
      _format no_atom_order (by_predicate (first_arg_only (__init__ [] "")))
              [("p", ArgTuple [PInt 1]); ("p", ArgTuple [PStr "a"]); ("q", ArgTuple [])]
      = Ok v.
Proof.
  split; [reflexivity|]. split; [reflexivity|].
  apply (unsorted_format_never_raises
           no_atom_order (by_predicate (first_arg_only (__init__ [] ""))));
    reflexivity.
Defined.

Lemma all_arguments_are_kept_witness :
  _format no_atom_order (atoms_as_string (__init__ [] ""))
          [("p", ArgTuple [PInt 2; PStr "a"]); ("q", ArgStr "b,c")]
  = Ok (Flat (FrozenSet [PTuple [PStr "p"; PTuple [PInt 2; PStr "a"]];
                         PTuple [PStr "q"; PTuple [PStr "b"; PStr ","; PStr "c"]]]))
  /\ exists c,
      Flat (FrozenSet [PTuple [PStr "p"; PTuple [PInt 2; PStr "a"]];
                       PTuple [PStr "q"; PTuple [PStr "b"; PStr ","; PStr "c"]]]) = Flat c
      /\ forall y, In y (elements c) <->
                   exists pred args,
                     In (pred, args) [("p", ArgTuple [PInt 2; PStr "a"]); ("q", ArgStr "b,c")]
                     /\ y = PTuple [PStr pred;
                                    match args with
                                    | ArgTuple items => PTuple items
                                    | ArgStr s =>
                                        PTuple (map (fun ch => PStr (String ch EmptyString))
                                                    (list_ascii_of_string s))
                                    end].
Proof.
  split; [reflexivity|].
  refine (proj1 (all_arguments_are_kept
                   no_atom_order (atoms_as_string (__init__ [] ""))
                   [("p", ArgTuple [PInt 2; PStr "a"]); ("q", ArgStr "b,c")]
                   _ eq_refl eq_refl eq_refl) eq_refl eq_refl).
Defined.

Lemma grouped_keys_are_the_predicates_witness :
  _format no_atom_order (by_predicate (__init__ [] ""))
          [("p", ArgTuple [PInt 2]); ("q", ArgTuple []); ("p", ArgTuple [PInt 3])]
  = Ok (Grouped [(PStr "p", FrozenSet [PTuple [PInt 2]; PTuple [PInt 3]]);
                 (PStr "q", FrozenSet [PTuple []])])
  /\ exists d,
      Grouped [(PStr "p", FrozenSet [PTuple [PInt 2]; PTuple [PInt 3]]);
               (PStr "q", FrozenSet [PTuple []])] = Grouped d
      /\ NoDup (map fst d)
      /\ (forall k, (exists c, dict_get k d = Some c) <->
                    exists pred args,
                      In (pred, args)
                         [("p", ArgTuple [PInt 2]); ("q", ArgTuple []);
                          ("p", ArgTuple [PInt 3])]
                      /\ k = PStr pred)
      /\ (forall k c, dict_get k d = Some c -> elements c <> []).
Proof.
  split; [reflexivity|].
  apply (grouped_keys_are_the_predicates no_atom_order (by_predicate (__init__ [] "")));
    reflexivity.
Defined.

Lemma sorted_keeps_every_atom_witness :
  _format no_atom_order (sorted (__init__ [] ""))
          [("p", ArgTuple [PInt 2]); ("p", ArgTuple [PInt 1]); ("p", ArgTuple [PInt 2])]
  = Ok (Flat (Tuple [PTuple [PStr "p"; PTuple [PInt 1]];
                     PTuple [PStr "p"; PTuple [PInt 2]];
                     PTuple [PStr "p"; PTuple [PInt 2]]]))
  /\ exists c,
      Flat (Tuple [PTuple [PStr "p"; PTuple [PInt 1]];
                   PTuple [PStr "p"; PTuple [PInt 2]];
                   PTuple [PStr "p"; PTuple [PInt 2]]]) = Flat c
      /\ match c with
         | Tuple l =>
             _sorted (sorted (__init__ [] "")) = true
             /\ Permutation
                  (items_of (sorted (__init__ [] ""))
                            [("p", ArgTuple [PInt 2]); ("p", ArgTuple [PInt 1]);
                             ("p", ArgTuple [PInt 2])]) l
             /\ List.length l = 3
         | FrozenSet l =>
             _sorted (sorted (__init__ [] "")) = false
             /\ NoDup l
             /\ forall y, In y l <->
                          In y (items_of (sorted (__init__ [] ""))
                                         [("p", ArgTuple [PInt 2]); ("p", ArgTuple [PInt 1]);
                                          ("p", ArgTuple [PInt 2])])
         end.
Proof.
  split; [reflexivity|].
  apply (sorted_keeps_every_atom no_atom_order (sorted (__init__ [] ""))
           [("p", ArgTuple [PInt 2]); ("p", ArgTuple [PInt 1]); ("p", ArgTuple [PInt 2])]);
    reflexivity.
Defined.
